(** * Coupon distribution generator (app.py): model and verified properties

    The two core functions of [app.py], [generate_coupon_distribution] and
    [generate_alternative_combinations], embedded as monadic programs over
    an explicit randomness source, with Python's integers as [Z], lists as
    [list Z] and the exceptions that the indexing, [min] and
    [random.choice] could raise made explicit. *)

From stdpp Require Import base decidable option numbers list sorting gmap.
From Stdlib Require Import ZArith Lia.

Local Open Scope Z_scope.

(** ** Outcomes, randomness and the program monad *)

(** What a Python statement can end with besides a value.  [OutOfFuel] is
    not a Python exception: it marks a [while] loop of the model that was
    given too few unfoldings; the theorems show it never comes out. *)
Inductive error := IndexError | ValueError | OutOfFuel.

Inductive result (A : Type) :=
  | Ok (a : A)
  | Raise (e : error).
Arguments Ok {A} a.
Arguments Raise {A} e.

(** The process-wide randomness source: [stream k] is the raw number behind
    the k-th draw ever made, [position] counts the draws made so far. *)
Record random_state := RandomState { stream : nat → nat; position : nat }.

Definition advance (s : random_state) : random_state :=
  RandomState (stream s) (S (position s)).

Definition M (A : Type) : Type := random_state → result (A * random_state).

Definition ret {A} (a : A) : M A := λ s, Ok (a, s).

Definition bind {A B} (m : M A) (k : A → M B) : M B :=
  λ s, match m s with
       | Ok (a, s') => k a s'
       | Raise e => Raise e
       end.

Definition raise {A} (e : error) : M A := λ _, Raise e.

Notation "x <- m ;; k" := (bind m (λ x, k))
  (at level 100, m at next level, right associativity,
   format "'[v' x  <-  m  ;;  '/' k ']'").

(** ** Python primitives *)

(** [sum(l)] on a list of integers. *)
Definition sum (l : list Z) : Z := foldr Z.add 0 l.

(** [min(l)]: [ValueError] on the empty list. *)
Definition py_min (l : list Z) : M Z :=
  match l with
  | [] => raise ValueError
  | x :: l' => ret (foldr Z.min x l')
  end.

(** [range(n)], empty for [n <= 0]. *)
Definition range (n : Z) : list nat := seq 0 (Z.to_nat n).

(** [l[i]] for an index produced by [range]: [IndexError] out of range. *)
Definition get_item (l : list Z) (i : nat) : M Z :=
  match l !! i with
  | Some v => ret v
  | None => raise IndexError
  end.

(** [l[i] = v], in place: [IndexError] out of range. *)
Definition set_item (l : list Z) (i : nat) (v : Z) : M (list Z) :=
  if decide (i < length l)%nat then ret (<[i:=v]> l) else raise IndexError.

(** [random.choice(xs)]: the element at a drawn index below [len(xs)];
    [IndexError] on the empty list.  One draw is consumed. *)
Definition choice (xs : list Z) : M Z := λ s,
  match xs with
  | [] => Raise IndexError
  | _ => match xs !! (stream s (position s) mod length xs)%nat with
         | Some x => Ok (x, advance s)
         | None => Raise IndexError
         end
  end.

(** Truth value of a list: non-empty. *)
Definition truthy {A} (l : list A) : bool :=
  match l with [] => false | _ => true end.

(** [sorted(l)] on integers. *)
Definition sorted (l : list Z) : list Z := merge_sort Z.le l.

(** ** The generator (app.py, lines 5-60) *)

Definition COUPON_VALUES : list Z := [250; 500; 1000; 2000].

(** Lines 20-35: the seeding loop, over the remaining positions [idxs]. *)
Fixpoint seed_loop (idxs : list nat) (distribution : list Z) (remaining : Z)
  : M (list Z) :=
  match idxs with
  | [] => ret distribution
  | i :: idxs' =>
    if decide (remaining ≤ 0) then ret distribution (* break *)
    else
      current_value <- get_item distribution i ;;
      let possible_upgrades :=
        filter (λ v, v > current_value) COUPON_VALUES in
      if truthy possible_upgrades && bool_decide (remaining > 0) then
        let valid_upgrades :=
          filter (λ v, v - current_value ≤ remaining) possible_upgrades in
        if truthy valid_upgrades then
          new_value <- choice valid_upgrades ;;
          let remaining := remaining - (new_value - current_value) in
          distribution <- set_item distribution i new_value ;;
          seed_loop idxs' distribution remaining
        else seed_loop idxs' distribution remaining
      else seed_loop idxs' distribution remaining
  end.

(** Lines 41-58: one round of the adjustment, over the remaining positions. *)
Fixpoint adjust_round (idxs : list nat) (target_amount : Z)
    (distribution : list Z) : M (list Z) :=
  match idxs with
  | [] => ret distribution
  | i :: idxs' =>
    let current_sum := sum distribution in
    if decide (current_sum = target_amount) then ret distribution (* break *)
    else
      let diff := target_amount - current_sum in
      current_value <- get_item distribution i ;;
      if decide (diff > 0) then
        let possible_increases :=
          filter (λ v, v > current_value ∧ v - current_value ≤ diff)
                 COUPON_VALUES in
        if truthy possible_increases then
          v <- choice possible_increases ;;
          distribution <- set_item distribution i v ;;
          adjust_round idxs' target_amount distribution
        else adjust_round idxs' target_amount distribution
      else if decide (diff < 0) then
        let possible_decreases :=
          filter (λ v, v < current_value ∧ current_value - v ≤ Z.abs diff)
                 COUPON_VALUES in
        if truthy possible_decreases then
          v <- choice possible_decreases ;;
          distribution <- set_item distribution i v ;;
          adjust_round idxs' target_amount distribution
        else adjust_round idxs' target_amount distribution
      else adjust_round idxs' target_amount distribution
  end.

(** Lines 39-58: the [while] loop; [fuel] bounds the unfoldings of the
    model, the loop condition is the source's.  Returns the distribution
    and the final value of [attempts]. *)
Fixpoint adjust_loop (fuel : nat) (target_amount num_coupons : Z)
    (distribution : list Z) (attempts : Z) : M (list Z * Z) :=
  if decide (sum distribution ≠ target_amount ∧ attempts < 1000) then
    match fuel with
    | O => raise OutOfFuel
    | S fuel' =>
      let attempts := attempts + 1 in
      distribution <- adjust_round (range num_coupons) target_amount
                                   distribution ;;
      adjust_loop fuel' target_amount num_coupons distribution attempts
    end
  else ret (distribution, attempts).

(** Lines 16-58: everything after the feasibility check; the result is the
    pair of the locals [distribution] and [attempts] at line 60. *)
Definition search (target_amount num_coupons : Z) : M (list Z * Z) :=
  lo <- py_min COUPON_VALUES ;;
  let distribution := replicate (Z.to_nat num_coupons) lo in
  let remaining := target_amount - sum distribution in
  distribution <- seed_loop (range num_coupons) distribution remaining ;;
  adjust_loop 1000 target_amount num_coupons distribution 0.

(** Lines 7-60.  [None] is Python's [None]. *)
Definition generate_coupon_distribution (target_amount num_coupons : Z)
  : M (option (list Z)) :=
  lo <- py_min COUPON_VALUES ;;
  if decide (target_amount < num_coupons * lo) then ret None
  else
    locals <- search target_amount num_coupons ;;
    ret (Some locals.1).

(** ** The generator with probes

    Copies of the functions above in which one piece of code is replaced
    by an arbitrary program [probe].  A run that does not depend on
    [probe] is a run that never executes that piece. *)

(** Lines 7-60 with the search after the feasibility check (lines 16-58)
    replaced by [probe]. *)
Definition generate_probe (probe : M (list Z * Z))
    (target_amount num_coupons : Z) : M (option (list Z)) :=
  lo <- py_min COUPON_VALUES ;;
  if decide (target_amount < num_coupons * lo) then ret None
  else
    locals <- probe ;;
    ret (Some locals.1).

(** Lines 41-58 with the body of the branch [elif diff < 0] (lines 56-58)
    replaced by [probe]. *)
Fixpoint adjust_round_probe (probe : M (list Z)) (idxs : list nat)
    (target_amount : Z) (distribution : list Z) : M (list Z) :=
  match idxs with
  | [] => ret distribution
  | i :: idxs' =>
    let current_sum := sum distribution in
    if decide (current_sum = target_amount) then ret distribution
    else
      let diff := target_amount - current_sum in
      current_value <- get_item distribution i ;;
      if decide (diff > 0) then
        let possible_increases :=
          filter (λ v, v > current_value ∧ v - current_value ≤ diff)
                 COUPON_VALUES in
        if truthy possible_increases then
          v <- choice possible_increases ;;
          distribution <- set_item distribution i v ;;
          adjust_round_probe probe idxs' target_amount distribution
        else adjust_round_probe probe idxs' target_amount distribution
      else if decide (diff < 0) then
        distribution <- probe ;;
        adjust_round_probe probe idxs' target_amount distribution
      else adjust_round_probe probe idxs' target_amount distribution
  end.

(** Lines 39-58 over the probed round. *)
Fixpoint adjust_loop_probe (probe : M (list Z)) (fuel : nat)
    (target_amount num_coupons : Z) (distribution : list Z) (attempts : Z)
  : M (list Z * Z) :=
  if decide (sum distribution ≠ target_amount ∧ attempts < 1000) then
    match fuel with
    | O => raise OutOfFuel
    | S fuel' =>
      let attempts := attempts + 1 in
      distribution <- adjust_round_probe probe (range num_coupons)
                                         target_amount distribution ;;
      adjust_loop_probe probe fuel' target_amount num_coupons distribution
                        attempts
    end
  else ret (distribution, attempts).

(** Lines 16-58 over the probed loop. *)
Definition search_probe (probe : M (list Z)) (target_amount num_coupons : Z)
  : M (list Z * Z) :=
  lo <- py_min COUPON_VALUES ;;
  let distribution := replicate (Z.to_nat num_coupons) lo in
  let remaining := target_amount - sum distribution in
  distribution <- seed_loop (range num_coupons) distribution remaining ;;
  adjust_loop_probe probe 1000 target_amount num_coupons distribution 0.

(** ** The alternative builder (app.py, lines 62-77) *)

(** Lines 67-75: the [for] loop over the remaining attempts.  [calls] is a
    ghost value, absent from the source: for every invocation of the
    generator so far, in order, the number of alternatives collected at
    the moment it was invoked. *)
Fixpoint alternatives_loop (attempts : list nat)
    (target_amount num_coupons num_alternatives : Z)
    (alternatives : list (list Z)) (calls : list nat)
  : M (list (list Z) * list nat) :=
  match attempts with
  | [] => ret (alternatives, calls)
  | _ :: attempts' =>
    let calls := calls ++ [length alternatives] in
    distribution <- generate_coupon_distribution target_amount num_coupons ;;
    match distribution with
    | Some distribution =>
      if truthy distribution && bool_decide (sum distribution = target_amount)
      then
        let sorted_dist := sorted distribution in
        if decide (sorted_dist ∉ (sorted <$> alternatives)) then
          let alternatives := alternatives ++ [distribution] in
          if decide (Z.of_nat (length alternatives) >= num_alternatives)
          then ret (alternatives, calls) (* break *)
          else alternatives_loop attempts' target_amount num_coupons
                                 num_alternatives alternatives calls
        else alternatives_loop attempts' target_amount num_coupons
                               num_alternatives alternatives calls
      else alternatives_loop attempts' target_amount num_coupons
                             num_alternatives alternatives calls
    | None => alternatives_loop attempts' target_amount num_coupons
                                num_alternatives alternatives calls
    end
  end.

(** Lines 62-77, with the ghost list of generator invocations. *)
Definition alternatives_run (target_amount num_coupons num_alternatives : Z)
  : M (list (list Z) * list nat) :=
  let alternatives := [] in
  let max_attempts := 100 in
  alternatives_loop (range max_attempts) target_amount num_coupons
                    num_alternatives alternatives [].

(** Lines 62-77. *)
Definition generate_alternative_combinations
    (target_amount num_coupons num_alternatives : Z) : M (list (list Z)) :=
  run <- alternatives_run target_amount num_coupons num_alternatives ;;
  ret run.1.

(** ** The presentation layer (app.py, lines 79-124 and 165-195)

    The Streamlit calls are output: each constructor of [ui] stands for
    the calls of the cited lines and carries the numbers they format. *)

Inductive ui :=
  | summary_header                                  (* line 83 *)
  | summary_row (value count value_total : Z)       (* lines 91-97 *)
  | summary_divider                                 (* line 99 *)
  | summary_total (total_value : Z)                 (* line 100 *)
  | alternatives_header (n : nat) (target_amount : Z) (* lines 105-106 *)
  | combination (i : nat) (lines : list (Z * Z * Z))
                (total_coupons : nat) (total_value : Z) (* lines 109-122 *)
  | only_one_info                                   (* line 124 *)
  | too_low_error (min_possible num_coupons : Z)    (* line 170 *)
  | success_message                                 (* line 176 *)
  | individual_values (cells : list (nat * nat * Z)) (* lines 185-190 *)
  | no_exact_error                                  (* line 193 *)
  | missing_input_warning.                          (* line 195 *)

(** [Counter(l)]: a dictionary from the elements of [l] to how often they
    occur. *)
Definition Counter (l : list Z) : gmap Z Z :=
  foldl (λ c v, <[v := default 0 (c !! v) + 1]> c) ∅ l.

(** [c[v]] on a Counter: 0 for a missing key. *)
Definition counter_get (c : gmap Z Z) (v : Z) : Z := default 0 (c !! v).

(** [sorted(c.keys())]; the order in which the keys are listed before the
    sort does not show in the result. *)
Definition sorted_keys (c : gmap Z Z) : list Z := sorted (map_to_list c).*1.

(** Lines 86-97: the loop over the sorted denominations; returns the rows
    written and the final [total_value]. *)
Fixpoint summary_loop (values : list Z) (coupon_counts : gmap Z Z)
    (total_value : Z) : list ui * Z :=
  match values with
  | [] => ([], total_value)
  | value :: values' =>
    let count := counter_get coupon_counts value in
    let value_total := value * count in
    let total_value := total_value + value_total in
    let rest := summary_loop values' coupon_counts total_value in
    (summary_row value count value_total :: rest.1, rest.2)
  end.

(** Lines 79-100. *)
Definition display_coupon_summary (distribution : list Z) : list ui :=
  let coupon_counts := Counter distribution in
  let total_value := 0 in
  let loop := summary_loop (sorted_keys coupon_counts) coupon_counts
                           total_value in
  [summary_header] ++ loop.1 ++ [summary_divider; summary_total loop.2].

(** Lines 109-122: the panel of the [i]-th alternative; a line is
    [(count, value, count * value)]. *)
Definition combination_panel (i : nat) (alt : list Z) : ui :=
  let coupon_counts := Counter alt in
  combination i
    ((λ value, let count := counter_get coupon_counts value in
               (count, value, count * value)) <$> sorted_keys coupon_counts)
    (length alt) (sum alt).

(** Lines 102-124; [enumerate(alternatives, 1)] numbers from 1. *)
Definition display_alternative_combinations (alternatives : list (list Z))
    (target_amount : Z) : list ui :=
  if decide (Z.of_nat (length alternatives) > 1) then
    alternatives_header (length alternatives) target_amount
    :: imap (λ i alt, combination_panel (S i) alt) alternatives
  else [only_one_info].

(** Lines 165-195: what the button "Generate Coupons" does with the two
    numbers of the form. *)
Definition on_generate (target_amount num_coupons : Z) : M (list ui) :=
  if bool_decide (target_amount ≠ 0) && bool_decide (num_coupons ≠ 0) then
    lo <- py_min COUPON_VALUES ;;
    let min_possible := num_coupons * lo in
    if decide (target_amount < min_possible) then
      ret [too_low_error min_possible num_coupons]
    else
      distribution <- generate_coupon_distribution target_amount
                                                   num_coupons ;;
      match distribution with
      | Some distribution =>
        if truthy distribution
           && bool_decide (sum distribution = target_amount)
        then
          alternatives <- generate_alternative_combinations
                            target_amount num_coupons 5 ;;
          ret ([success_message]
               ++ display_coupon_summary distribution
               ++ display_alternative_combinations alternatives
                                                   target_amount
               ++ [individual_values
                     (imap (λ i value, ((i mod 5)%nat, S i, value))
                           distribution)])
        else ret [no_exact_error]
      | None => ret [no_exact_error]
      end
  else ret [missing_input_warning].

(** ** Specification vocabulary *)

(** [returns m s Q]: from state [s] the program [m] ends with a value (no
    exception, no exhausted fuel) and the value and final state satisfy
    [Q]. *)
Definition returns {A} (m : M A) (s : random_state)
    (Q : A → random_state → Prop) : Prop :=
  ∃ a s', m s = Ok (a, s') ∧ Q a s'.

(** A distribution over the denomination set. *)
Definition valid (d : list Z) : Prop := Forall (λ v, v ∈ COUPON_VALUES) d.

(** No denomination satisfies [P]. *)
Definition none_qualifies (P : Z → Prop) : Prop :=
  ¬ P 250 ∧ ¬ P 500 ∧ ¬ P 1000 ∧ ¬ P 2000.

(** What the builder has collected and how it has called the generator:
    every entry sums to the target and has [count] elements, the sorted
    forms are pairwise different, and every call was made with fewer than
    [num_alternatives] entries collected. *)
Definition collected (target count num_alternatives : Z)
    (alternatives : list (list Z)) (calls : list nat) : Prop :=
  (∀ a, a ∈ alternatives → sum a = target ∧ Z.of_nat (length a) = count) ∧
  NoDup (sorted <$> alternatives) ∧
  Forall (λ n, Z.of_nat n < num_alternatives) calls.

(** How often [v] occurs in [l]. *)
Definition occurrences (v : Z) (l : list Z) : Z :=
  Z.of_nat (length (filter (λ x, x = v) l)).

(** [lo'] is the least denomination above those from [lo] on. *)
Definition climbs (lo lo' : Z) : Prop :=
  lo ≤ lo' ≤ 2000 ∧
  ∀ cur v, cur ∈ COUPON_VALUES → v ∈ COUPON_VALUES →
           lo ≤ cur → v > cur → lo' ≤ v.

(** The draw that makes [random.choice] pick the upgrade [v] among the
    upgrades of a minimum coupon, and the randomness source that picks the
    upgrades [u] one after the other. *)
Definition upgrade_index (v : Z) : nat :=
  if decide (v = 500) then 0 else if decide (v = 1000) then 1 else 2.

Definition choices_for (u : list Z) : random_state :=
  RandomState (λ k, from_option upgrade_index 0%nat (u !! k)) 0.

(** Two concrete randomness sources for the examples. *)
Definition zeros : random_state := RandomState (λ _, 0%nat) 0.
Definition count_up : random_state := RandomState (λ k, k) 0.

(** ** A total-correctness logic for the monad *)

Section logic.
Context {A B : Type}.
Implicit Types (s : random_state) (Q : A → random_state → Prop).

Lemma returns_ret (a : A) s Q : Q a s → returns (ret a) s Q.
Proof. intros HQ. exists a, s. done. Qed.

Lemma returns_bind (m : M A) (k : A → M B) s (R : B → random_state → Prop) :
  returns m s (λ a s', returns (k a) s' R) → returns (x <- m ;; k x) s R.
Proof.
  intros (a & s' & Hm & b & s'' & Hk & HR).
  exists b, s''. unfold bind. rewrite Hm. done.
Qed.

Lemma returns_mono (m : M A) s (P : A → random_state → Prop) Q :
  returns m s P → (∀ a s', P a s' → Q a s') → returns m s Q.
Proof. intros (a & s' & Hm & HP) HPQ. exists a, s'. auto. Qed.

End logic.

Lemma returns_get_item l i v s Q :
  l !! i = Some v → Q v s → returns (get_item l i) s Q.
Proof. intros Hl HQ. unfold get_item. rewrite Hl. by apply returns_ret. Qed.

Lemma returns_set_item l i v s Q :
  (i < length l)%nat → Q (<[i:=v]> l) s → returns (set_item l i v) s Q.
Proof.
  intros Hi HQ. unfold set_item. rewrite decide_True by done.
  by apply returns_ret.
Qed.

Lemma returns_choice xs s (Q : Z → random_state → Prop) :
  xs ≠ [] → (∀ x, x ∈ xs → Q x (advance s)) → returns (choice xs) s Q.
Proof.
  intros Hne HQ. unfold returns, choice.
  destruct xs as [|x0 xs']; [done|].
  set (xs := x0 :: xs') in *.
  destruct (lookup_lt_is_Some_2 xs (stream s (position s) mod length xs)%nat)
    as [x Hx].
  { apply Nat.mod_upper_bound. done. }
  rewrite Hx. exists x, (advance s). split; [done|].
  apply HQ. by eapply list_elem_of_lookup_2.
Qed.

(** Runs as equations. *)
Lemma bind_run {A B} (m : M A) (k : A → M B) s :
  (x <- m ;; k x) s
  = match m s with Ok (a, s') => k a s' | Raise e => Raise e end.
Proof. done. Qed.

Lemma min_COUPON_VALUES s : py_min COUPON_VALUES s = Ok (250, s).
Proof. done. Qed.

Lemma choice_Ok xs s v s' :
  choice xs s = Ok (v, s') → v ∈ xs ∧ s' = advance s.
Proof.
  unfold choice. destruct xs as [|x0 xs']; [done|].
  destruct (_ !! _) as [x|] eqn:Hx; [|done].
  intros [= <- <-]. split; [|done]. by eapply list_elem_of_lookup_2.
Qed.

Lemma get_item_Ok l i v s s' :
  get_item l i s = Ok (v, s') → l !! i = Some v ∧ s' = s.
Proof.
  unfold get_item. destruct (l !! i) as [x|]; [|done]. by intros [= <- <-].
Qed.

Lemma set_item_Ok l i v l' s s' :
  set_item l i v s = Ok (l', s') → l' = <[i:=v]> l ∧ s' = s.
Proof. unfold set_item. case_decide; [|done]. by intros [= <- <-]. Qed.

Lemma choice_at xs s x :
  xs !! (stream s (position s) mod length xs)%nat = Some x →
  choice xs s = Ok (x, advance s).
Proof.
  intros Hx. unfold choice. rewrite Hx. by destruct xs.
Qed.

Lemma truthy_ne {X} (l : list X) : truthy l = true ↔ l ≠ [].
Proof. by destruct l. Qed.

Lemma truthy_nil {X} (l : list X) : truthy l = false ↔ l = [].
Proof. by destruct l. Qed.

(** ** Arithmetic of distributions *)

Lemma coupon_cases v :
  v ∈ COUPON_VALUES ↔ v = 250 ∨ v = 500 ∨ v = 1000 ∨ v = 2000.
Proof.
  unfold COUPON_VALUES. rewrite !elem_of_cons, elem_of_nil. tauto.
Qed.

Lemma sum_cons x l : sum (x :: l) = x + sum l.
Proof. done. Qed.

Lemma sum_app l k : sum (l ++ k) = sum l + sum k.
Proof.
  induction l as [|x l IH]; [done|].
  rewrite <-app_comm_cons, !sum_cons. lia.
Qed.

Lemma sum_replicate n x : sum (replicate n x) = Z.of_nat n * x.
Proof.
  induction n as [|n IH]; [done|].
  change (sum (replicate (S n) x)) with (x + sum (replicate n x)). lia.
Qed.

Lemma sum_insert l i old v :
  l !! i = Some old → sum (<[i:=v]> l) = sum l - old + v.
Proof.
  revert i. induction l as [|x l IH]; intros [|i] Hl; simplify_eq/=.
  - change (v + sum l = old + sum l - old + v). lia.
  - change (x + sum (<[i:=v]> l) = x + sum l - old + v).
    rewrite (IH i) by done. lia.
Qed.

Lemma valid_sum_bounds d :
  valid d → 250 * Z.of_nat (length d) ≤ sum d ≤ 2000 * Z.of_nat (length d).
Proof.
  induction 1 as [|v d Hv _ IH]; [done|].
  apply coupon_cases in Hv. rewrite sum_cons, length_cons. lia.
Qed.

Lemma valid_replicate n : valid (replicate n 250).
Proof. apply Forall_replicate, coupon_cases. auto. Qed.

Lemma range_lt n i : i ∈ range n → (i < Z.to_nat n)%nat.
Proof. unfold range. rewrite elem_of_seq. lia. Qed.

(** ** Invariants of the two loops of the generator *)

(** The seeding loop ends normally, keeps length and denominations, never
    lowers the sum and raises it by at most the remaining budget. *)
Lemma seed_loop_spec idxs d remaining s :
  Forall (λ i, (i < length d)%nat) idxs → valid d →
  returns (seed_loop idxs d remaining) s (λ d' _,
    length d' = length d ∧ valid d' ∧
    sum d ≤ sum d' ≤ sum d + Z.max 0 remaining).
Proof.
  revert d remaining s.
  induction idxs as [|i idxs IH]; intros d remaining s Hidx Hd; simpl.
  { apply returns_ret. repeat split; [done|lia..]. }
  apply Forall_cons in Hidx as [Hi Hidx].
  case_decide as Hrem.
  { apply returns_ret. repeat split; [done|lia..]. }
  destruct (lookup_lt_is_Some_2 d i Hi) as [cur Hcur].
  apply returns_bind. eapply returns_get_item; [done|].
  assert (∀ s0, returns (seed_loop idxs d remaining) s0 (λ d' _,
    length d' = length d ∧ valid d' ∧
    sum d ≤ sum d' ≤ sum d + Z.max 0 remaining)) as Hskip.
  { intros s0. by apply IH. }
  destruct (truthy _ && _); [|done].
  destruct (truthy _) eqn:Hup; [|done].
  apply truthy_ne in Hup.
  apply returns_bind, returns_choice; [done|].
  intros v [Hcost [Hgt Hv]%list_elem_of_filter]%list_elem_of_filter.
  apply returns_bind, returns_set_item; [done|].
  eapply returns_mono.
  { apply IH.
    - rewrite length_insert. done.
    - by apply Forall_insert. }
  simpl. intros d' _ (Hlen & Hval & Hsum).
  rewrite length_insert in Hlen. rewrite (sum_insert _ _ cur) in Hsum by done.
  repeat split; [done..|lia|lia].
Qed.

(** One adjustment round ends normally, keeps length and denominations,
    and moves the sum towards the target without crossing it. *)
Lemma adjust_round_spec idxs target d s :
  Forall (λ i, (i < length d)%nat) idxs → valid d →
  returns (adjust_round idxs target d) s (λ d' _,
    length d' = length d ∧ valid d' ∧
    (sum d ≤ target → sum d ≤ sum d' ≤ target) ∧
    (target ≤ sum d → target ≤ sum d' ≤ sum d)).
Proof.
  revert d s.
  induction idxs as [|i idxs IH]; intros d s Hidx Hd; simpl.
  { apply returns_ret. repeat split; [done|lia..]. }
  apply Forall_cons in Hidx as [Hi Hidx].
  case_decide as Hsum.
  { apply returns_ret. repeat split; [done|lia..]. }
  destruct (lookup_lt_is_Some_2 d i Hi) as [cur Hcur].
  apply returns_bind. eapply returns_get_item; [done|].
  assert (∀ s0, returns (adjust_round idxs target d) s0 (λ d' _,
    length d' = length d ∧ valid d' ∧
    (sum d ≤ target → sum d ≤ sum d' ≤ target) ∧
    (target ≤ sum d → target ≤ sum d' ≤ sum d))) as Hskip.
  { intros s0. by apply IH. }
  assert (∀ v s0, v ∈ COUPON_VALUES →
    (sum d < target → cur < v ∧ v - cur ≤ target - sum d) →
    (target < sum d → v < cur ∧ cur - v ≤ sum d - target) →
    returns (adjust_round idxs target (<[i:=v]> d)) s0 (λ d' _,
      length d' = length d ∧ valid d' ∧
      (sum d ≤ target → sum d ≤ sum d' ≤ target) ∧
      (target ≤ sum d → target ≤ sum d' ≤ sum d))) as Hmove.
  { intros v s0 Hv Hup Hdown. eapply returns_mono.
    { apply IH.
      - rewrite length_insert. done.
      - by apply Forall_insert. }
    simpl. intros d' _ (Hlen & Hval & Hle & Hge).
    rewrite length_insert in Hlen.
    rewrite (sum_insert _ _ cur) in Hle, Hge by done.
    repeat split; [done|done|lia..]. }
  case_decide as Hpos; [|case_decide as Hneg]; [| |done].
  - destruct (truthy _) eqn:Hinc; [|done]. apply truthy_ne in Hinc.
    apply returns_bind, returns_choice; [done|].
    intros v [[Hgt Hcost] Hv]%list_elem_of_filter.
    apply returns_bind, returns_set_item; [done|].
    apply Hmove; [done|lia..].
  - destruct (truthy _) eqn:Hdec; [|done]. apply truthy_ne in Hdec.
    apply returns_bind, returns_choice; [done|].
    intros v [[Hlt Hcost] Hv]%list_elem_of_filter.
    apply returns_bind, returns_set_item; [done|].
    apply Hmove; [done|lia..].
Qed.

Lemma range_in_bounds (d : list Z) n :
  length d = Z.to_nat n → Forall (λ i, (i < length d)%nat) (range n).
Proof.
  intros Hlen. apply Forall_forall. intros i Hi%range_lt. lia.
Qed.

(** The [while] loop ends normally within the given fuel, with at most 1000
    rounds in all, and stops before that only on an exact sum. *)
Lemma adjust_loop_spec fuel target count d attempts s :
  length d = Z.to_nat count → valid d →
  0 ≤ attempts ≤ 1000 → 1000 - attempts ≤ Z.of_nat fuel →
  returns (adjust_loop fuel target count d attempts) s (λ r _,
    length r.1 = length d ∧ valid r.1 ∧
    attempts ≤ r.2 ≤ 1000 ∧ (sum r.1 = target ∨ r.2 = 1000) ∧
    (sum d ≤ target → sum d ≤ sum r.1 ≤ target)).
Proof.
  revert d attempts s.
  induction fuel as [|fuel IH]; intros d attempts s Hlen Hd Hatt Hfuel.
  - simpl. case_decide as Hcond; [lia|].
    apply returns_ret. simpl. repeat split; [done|lia..].
  - simpl. case_decide as Hcond.
    + apply returns_bind. eapply returns_mono.
      { apply adjust_round_spec; [by apply range_in_bounds|done]. }
      simpl. intros d1 s1 (Hlen1 & Hd1 & Hle1 & _).
      eapply returns_mono.
      { apply IH; [congruence|done|lia|lia]. }
      simpl. intros [d2 a2] _ (Hlen2 & Hd2 & Ha2 & Hstop & Hle2); simpl in *.
      repeat split; [congruence|done|lia|lia|done|lia|lia].
    + apply returns_ret. simpl. repeat split; [done|lia..].
Qed.

(** The search after the feasibility check ends normally with a
    distribution of the requested length over the denominations, after at
    most 1000 rounds, and never above a target that the all-minimum start
    does not exceed. *)
Lemma search_spec target count s :
  returns (search target count) s (λ r _,
    length r.1 = Z.to_nat count ∧ valid r.1 ∧
    0 ≤ r.2 ≤ 1000 ∧ (sum r.1 = target ∨ r.2 = 1000) ∧
    (Z.of_nat (Z.to_nat count) * 250 ≤ target → sum r.1 ≤ target)).
Proof.
  unfold search. apply returns_bind, returns_ret.
  change (foldr Z.min 250 [500; 1000; 2000]) with 250.
  set (d0 := replicate (Z.to_nat count) 250).
  assert (length d0 = Z.to_nat count) as Hlen0 by apply length_replicate.
  assert (sum d0 = Z.of_nat (Z.to_nat count) * 250) as Hsum0
    by apply sum_replicate.
  apply returns_bind. eapply returns_mono.
  { apply seed_loop_spec; [by apply range_in_bounds|apply valid_replicate]. }
  cbv beta. intros d1 s1 (Hlen1 & Hd1 & Hsum1).
  eapply returns_mono.
  { apply (adjust_loop_spec 1000 target count d1 0);
      [congruence|done|lia|done]. }
  cbv beta. intros [d2 a2] _ (Hlen2 & Hd2 & Ha2 & Hstop & Hle2).
  cbn [fst snd] in *.
  repeat split; [congruence|done|lia|lia|done|lia].
Qed.

(** The generator below and above the feasibility check. *)
Lemma generate_probe_search target count :
  generate_probe (search target count) target count
  = generate_coupon_distribution target count.
Proof. done. Qed.

Lemma generate_low target count s :
  target < count * 250 →
  generate_coupon_distribution target count s = Ok (None, s).
Proof.
  intros Hlow. unfold generate_coupon_distribution, bind. simpl.
  by rewrite decide_True.
Qed.

Lemma generate_high target count s d attempts s' :
  count * 250 ≤ target →
  search target count s = Ok ((d, attempts), s') →
  generate_coupon_distribution target count s = Ok (Some d, s').
Proof.
  intros Hhigh Hsearch. unfold generate_coupon_distribution, bind at 1. simpl.
  rewrite decide_False by lia. unfold bind. by rewrite Hsearch.
Qed.

(** The generator always ends normally; [None] comes out exactly below the
    minimum, and otherwise what [search_spec] says of the search. *)
Lemma generate_spec target count s :
  returns (generate_coupon_distribution target count) s (λ r _,
    match r with
    | None => target < count * 250
    | Some d =>
      count * 250 ≤ target ∧ length d = Z.to_nat count ∧ valid d ∧
      (0 ≤ count → sum d ≤ target)
    end).
Proof.
  destruct (decide (target < count * 250)) as [Hlow|Hhigh].
  { exists None, s. split; [by apply generate_low|done]. }
  destruct (search_spec target count s)
    as ([d a] & s' & Hsearch & Hlen & Hd & _ & _ & Hle); cbn [fst snd] in *.
  exists (Some d), s'. split; [eapply generate_high; [lia|done]|].
  repeat split; [lia|done|done|]. intros Hcount. apply Hle. lia.
Qed.

(** ** The decrease branch is dead below the target *)

Lemma adjust_round_probe_eq probe idxs target d s :
  sum d ≤ target →
  adjust_round_probe probe idxs target d s = adjust_round idxs target d s.
Proof.
  revert d s. induction idxs as [|i idxs IH]; intros d s Hle; [done|].
  simpl. case_decide as Hsum; [done|].
  rewrite !bind_run.
  destruct (get_item d i s) as [[cur s1]|e] eqn:Hget; [|done].
  apply get_item_Ok in Hget as [Hcur ->].
  destruct (decide (target - sum d > 0)) as [_|?]; [|lia].
  destruct (truthy _); [|by apply IH].
  rewrite !bind_run.
  destruct (choice _ s) as [[v s2]|e] eqn:Hv; [|done].
  apply choice_Ok in Hv as [[[Hgt Hcost] _]%list_elem_of_filter _].
  rewrite !bind_run.
  destruct (set_item d i v s2) as [[d' s3]|e] eqn:Hset; [|done].
  apply set_item_Ok in Hset as [-> ->].
  apply IH. rewrite (sum_insert _ _ cur) by done. lia.
Qed.

Lemma adjust_loop_probe_eq probe fuel target count d attempts s :
  length d = Z.to_nat count → valid d → sum d ≤ target →
  adjust_loop_probe probe fuel target count d attempts s
  = adjust_loop fuel target count d attempts s.
Proof.
  revert d attempts s.
  induction fuel as [|fuel IH]; intros d attempts s Hlen Hd Hle; [done|].
  simpl. case_decide as Hcond; [|done].
  unfold bind. rewrite adjust_round_probe_eq by done.
  destruct (adjust_round_spec (range count) target d s)
    as (d1 & s1 & -> & Hlen1 & Hd1 & Hle1 & _);
    [by apply range_in_bounds|done|].
  apply IH; [congruence|done|lia].
Qed.

Lemma search_probe_eq probe target count s :
  0 ≤ count → count * 250 ≤ target →
  search_probe probe target count s = search target count s.
Proof.
  intros Hcount Hhigh. unfold search_probe, search.
  rewrite !bind_run, min_COUPON_VALUES, !bind_run.
  set (d0 := replicate (Z.to_nat count) 250).
  assert (sum d0 = Z.of_nat (Z.to_nat count) * 250) as Hsum0
    by apply sum_replicate.
  destruct (seed_loop_spec (range count) d0 (target - sum d0) s)
    as (d1 & s1 & -> & Hlen1 & Hd1 & Hsum1);
    [apply range_in_bounds, length_replicate|apply valid_replicate|].
  apply adjust_loop_probe_eq; [|done|lia].
  rewrite Hlen1. apply length_replicate.
Qed.

(** ** Stepping the loops on concrete data *)

Lemma none_qualifies_intro (P : Z → Prop) :
  (∀ v, v ∈ COUPON_VALUES → ¬ P v) → none_qualifies P.
Proof.
  intros H. repeat split; apply H, coupon_cases; auto.
Qed.

Lemma filter_nil_none (P : Z → Prop) `{!∀ v, Decision (P v)} :
  filter P COUPON_VALUES = [] → none_qualifies P.
Proof.
  intros Hnil. apply none_qualifies_intro. intros v Hv HP.
  exact (filter_nil_not_elem_of _ _ v Hnil HP Hv).
Qed.

Lemma seed_loop_break idxs d remaining s Q :
  remaining ≤ 0 ∨ idxs = [] → Q d s → returns (seed_loop idxs d remaining) s Q.
Proof.
  intros Hstop HQ. destruct idxs as [|i idxs]; simpl.
  - by apply returns_ret.
  - destruct Hstop as [?|?]; [|done].
    rewrite decide_True by done. by apply returns_ret.
Qed.

Lemma seed_loop_step i idxs d remaining cur s Q :
  remaining > 0 → d !! i = Some cur →
  (none_qualifies (λ v, v > cur ∧ v - cur ≤ remaining) →
   returns (seed_loop idxs d remaining) s Q) →
  (∀ v d' remaining', v ∈ COUPON_VALUES → v > cur → v - cur ≤ remaining →
     d' = <[i:=v]> d → remaining' = remaining - (v - cur) →
     returns (seed_loop idxs d' remaining') (advance s) Q) →
  returns (seed_loop (i :: idxs) d remaining) s Q.
Proof.
  intros Hrem Hcur Hskip Hmove. simpl.
  rewrite decide_False by lia.
  apply returns_bind. eapply returns_get_item; [done|].
  destruct (truthy (filter _ COUPON_VALUES)) eqn:Hposs; simpl.
  - rewrite bool_decide_eq_true_2 by done.
    destruct (truthy (filter _ (filter _ COUPON_VALUES))) eqn:Hup.
    + apply truthy_ne in Hup.
      apply returns_bind, returns_choice; [done|].
      intros v [Hcost [Hgt Hv]%list_elem_of_filter]%list_elem_of_filter.
      apply returns_bind, returns_set_item; [by eapply lookup_lt_Some|].
      by eapply Hmove.
    + apply truthy_nil in Hup. apply Hskip, none_qualifies_intro.
      intros v Hv [Hgt Hcost].
      apply (filter_nil_not_elem_of _ _ v Hup Hcost), list_elem_of_filter.
      done.
  - apply truthy_nil in Hposs. apply Hskip, none_qualifies_intro.
    intros v Hv [Hgt Hcost].
    exact (filter_nil_not_elem_of _ _ v Hposs Hgt Hv).
Qed.

Lemma adjust_round_break idxs target d s Q :
  sum d = target ∨ idxs = [] → Q d s → returns (adjust_round idxs target d) s Q.
Proof.
  intros Hstop HQ. destruct idxs as [|i idxs]; simpl.
  - by apply returns_ret.
  - destruct Hstop as [?|?]; [|done].
    rewrite decide_True by done. by apply returns_ret.
Qed.

Lemma adjust_round_step i idxs target d cur diff s Q :
  d !! i = Some cur → diff = target - sum d → diff > 0 →
  (none_qualifies (λ v, v > cur ∧ v - cur ≤ diff) →
   returns (adjust_round idxs target d) s Q) →
  (∀ v d', v ∈ COUPON_VALUES → v > cur → v - cur ≤ diff →
     d' = <[i:=v]> d →
     returns (adjust_round idxs target d') (advance s) Q) →
  returns (adjust_round (i :: idxs) target d) s Q.
Proof.
  intros Hcur -> Hdiff Hskip Hmove. simpl.
  rewrite decide_False by lia.
  apply returns_bind. eapply returns_get_item; [done|].
  rewrite decide_True by done.
  destruct (truthy _) eqn:Hinc.
  - apply truthy_ne in Hinc.
    apply returns_bind, returns_choice; [done|].
    intros v [[Hgt Hcost] Hv]%list_elem_of_filter.
    apply returns_bind, returns_set_item; [by eapply lookup_lt_Some|].
    by eapply Hmove.
  - apply truthy_nil in Hinc. apply Hskip. exact (filter_nil_none _ Hinc).
Qed.

Lemma adjust_loop_done fuel target count d attempts s Q :
  sum d = target ∨ attempts >= 1000 →
  Q (d, attempts) s → returns (adjust_loop fuel target count d attempts) s Q.
Proof.
  intros Hstop HQ. destruct fuel; simpl;
    (rewrite decide_False by lia); by apply returns_ret.
Qed.

Lemma adjust_loop_step fuel target count d attempts s Q :
  sum d ≠ target → attempts < 1000 →
  returns (adjust_round (range count) target d) s (λ d' s',
    returns (adjust_loop fuel target count d' (attempts + 1)) s' Q) →
  returns (adjust_loop (S fuel) target count d attempts) s Q.
Proof.
  intros Hsum Hatt Hround. simpl. rewrite decide_True by done.
  by apply returns_bind.
Qed.

(** ** Concrete runs *)

Example run_3000_4 :
  generate_coupon_distribution 3000 4 count_up
  = Ok (Some [500; 1000; 500; 1000], RandomState (stream count_up) 4).
Proof. vm_compute. reflexivity. Qed.

Example run_750_2 :
  generate_coupon_distribution 750 2 zeros
  = Ok (Some [500; 250], RandomState (stream zeros) 1).
Proof. vm_compute. reflexivity. Qed.

Example run_alternatives_3000_4_2 :
  alternatives_run 3000 4 2 count_up
  = Ok (([[500; 1000; 500; 1000]; [2000; 500; 250; 250]], [0; 1; 1]%nat),
        RandomState (stream count_up) 10).
Proof. vm_compute. reflexivity. Qed.

(** ** The claims about the generator *)

(** C2. For positive [target] and [count] with [target < count * 250] the
    generator returns [None] at once, whatever the random choices: the
    randomness source is left untouched, and whatever program stands in
    place of the seeding and adjustment search, it is not run. *)
Theorem infeasible_low_returns_None target count s :
  0 < target → 0 < count → target < count * 250 →
  generate_coupon_distribution target count s = Ok (None, s) ∧
  ∀ probe, generate_probe probe target count s = Ok (None, s).
Proof.
  intros _ _ Hlow. split; [by apply generate_low|].
  intros probe. unfold generate_probe.
  rewrite bind_run, min_COUPON_VALUES. by rewrite decide_True.
Qed.

(** The third scenario of the specification: target 100, one coupon. *)
Lemma infeasible_low_scenario_3 :
  (0 < 100 ∧ 0 < 1 ∧ 100 < 1 * 250) ∧
  generate_coupon_distribution 100 1 count_up = Ok (None, count_up) ∧
  ∀ probe, generate_probe probe 100 1 count_up = Ok (None, count_up).
Proof.
  split; [lia|]. apply (infeasible_low_returns_None 100 1 count_up); lia.
Defined.

(** C3. For positive [target] and [count] with [target >= count * 250]
    and every sequence of random choices, the generator returns a sequence
    of length exactly [count] all of whose elements are denominations. *)
Theorem generated_length_and_denominations target count s :
  0 < target → 0 < count → target >= count * 250 →
  ∃ d s', generate_coupon_distribution target count s = Ok (Some d, s') ∧
          Z.of_nat (length d) = count ∧
          ∀ v, v ∈ d → v ∈ COUPON_VALUES.
Proof.
  intros _ Hcount Hhigh.
  destruct (generate_spec target count s) as (r & s' & Hrun & Hr).
  destruct r as [d|]; [|lia].
  destruct Hr as (_ & Hlen & Hd & _).
  exists d, s'. split; [done|]. split; [lia|].
  by apply Forall_forall.
Qed.

Lemma generated_length_and_denominations_witness :
  (0 < 3000 ∧ 0 < 4 ∧ 3000 >= 4 * 250) ∧
  ∃ d s', generate_coupon_distribution 3000 4 count_up = Ok (Some d, s') ∧
          Z.of_nat (length d) = 4 ∧
          ∀ v, v ∈ d → v ∈ COUPON_VALUES.
Proof.
  split; [lia|].
  apply (generated_length_and_denominations 3000 4 count_up); lia.
Defined.

(** C7. For [target > count * 2000], with [count] a number of coupons
    (not negative), no infeasibility is signalled: whatever the random
    choices, the search runs all of its 1000 rounds and the generator
    returns a sequence of length [count] whose sum is not [target]. *)
Theorem above_maximum_exhausts_budget target count s :
  0 ≤ count → target > count * 2000 →
  ∃ d s', search target count s = Ok ((d, 1000), s') ∧
          generate_coupon_distribution target count s = Ok (Some d, s') ∧
          Z.of_nat (length d) = count ∧
          sum d ≠ target.
Proof.
  intros Hcount Hhigh.
  destruct (search_spec target count s)
    as ([d a] & s' & Hsearch & Hlen & Hd & _ & Hstop & _); cbn [fst snd] in *.
  pose proof (valid_sum_bounds d Hd) as Hsum.
  assert (sum d ≠ target) as Hne by lia.
  destruct Hstop as [?| ->]; [done|].
  exists d, s'. repeat split; [done| |lia|done].
  eapply generate_high; [lia|done].
Qed.

Lemma above_maximum_exhausts_budget_witness :
  (0 ≤ 2 ∧ 4250 > 2 * 2000) ∧
  ∃ d s', search 4250 2 zeros = Ok ((d, 1000), s') ∧
          generate_coupon_distribution 4250 2 zeros = Ok (Some d, s') ∧
          Z.of_nat (length d) = 2 ∧
          sum d ≠ 4250.
Proof.
  split; [lia|]. apply (above_maximum_exhausts_budget 4250 2 zeros); lia.
Defined.

(** C10. For positive [target] and [count] with [target >= count * 250]
    and every sequence of random choices, the returned sequence sums to at
    most [target]; and the decrease branch of the adjustment loop is never
    executed: whatever program [probe] stands in its place, the search
    runs the same. *)
Theorem generated_sum_never_overshoots target count s :
  0 < target → 0 < count → target >= count * 250 →
  (∃ d s', generate_coupon_distribution target count s = Ok (Some d, s') ∧
           sum d ≤ target) ∧
  (∀ probe, search_probe probe target count s = search target count s).
Proof.
  intros _ Hcount Hhigh. split.
  - destruct (generate_spec target count s) as (r & s' & Hrun & Hr).
    destruct r as [d|]; [|lia].
    destruct Hr as (_ & _ & _ & Hle).
    exists d, s'. split; [done|]. apply Hle. lia.
  - intros probe. apply search_probe_eq; lia.
Qed.

Lemma generated_sum_never_overshoots_witness :
  (0 < 3000 ∧ 0 < 4 ∧ 3000 >= 4 * 250) ∧
  (∃ d s', generate_coupon_distribution 3000 4 count_up = Ok (Some d, s') ∧
           sum d ≤ 3000) ∧
  (∀ probe, search_probe probe 3000 4 count_up = search 3000 4 count_up).
Proof.
  split; [lia|].
  apply (generated_sum_never_overshoots 3000 4 count_up); lia.
Defined.

(** Symbolic execution of the loops on concrete data: arguments are
    evaluated, every draw splits into the denominations that qualify. *)
Ltac coupon_split H := apply coupon_cases in H as [-> | [-> | [-> | ->]]].

Ltac seed_run :=
  lazymatch goal with
  | |- returns (seed_loop ?i ?d ?r) ?s ?Q =>
    let i' := eval vm_compute in i in
    let d' := eval vm_compute in d in
    let r' := eval vm_compute in r in
    change (returns (seed_loop i' d' r') s Q);
    first
      [ apply seed_loop_break; [(left; lia) || (by right)|]
      | eapply seed_loop_step;
        [ lia | reflexivity
        | unfold none_qualifies; intros ?; try lia
        | let Hv := fresh "Hv" in
          intros ? ? ? Hv ? ? -> ->; coupon_split Hv; try lia ] ]
  end.

Ltac round_run :=
  lazymatch goal with
  | |- returns (adjust_round ?i ?t ?d) ?s ?Q =>
    let i' := eval vm_compute in i in
    let d' := eval vm_compute in d in
    change (returns (adjust_round i' t d') s Q);
    first
      [ apply adjust_round_break; [(left; by vm_compute) || (by right)|]
      | eapply adjust_round_step;
        [ reflexivity | lazy; reflexivity | lia
        | unfold none_qualifies; intros ?; try lia
        | let Hv := fresh "Hv" in
          intros ? ? Hv ? ? ->; coupon_split Hv; try lia ] ]
  end.

Ltac loop_run :=
  lazymatch goal with
  | |- returns (adjust_loop ?f ?t ?c ?d ?a) ?s ?Q =>
    let d' := eval vm_compute in d in
    let a' := eval vm_compute in a in
    change (returns (adjust_loop f t c d' a') s Q);
    first
      [ apply adjust_loop_done; [left; by vm_compute|]
      | apply adjust_loop_step; [by vm_compute | lia |] ]
  end.

Ltac run := repeat (cbv beta; first [seed_run | round_run | loop_run]).

Lemma search_1000_1 s :
  returns (search 1000 1) s (λ r _, r.1 = [1000] ∧ 0 ≤ r.2 ≤ 1).
Proof.
  unfold search. apply returns_bind, returns_ret. apply returns_bind.
  run; cbv beta; cbn [fst snd]; (split; [reflexivity|lia]).
Qed.

Lemma search_4000_2 s :
  returns (search 4000 2) s (λ r _, r.1 = [2000; 2000] ∧ 0 ≤ r.2 ≤ 2).
Proof.
  unfold search. apply returns_bind, returns_ret. apply returns_bind.
  run; cbv beta; cbn [fst snd]; (split; [reflexivity|lia]).
Qed.

(** C8. Whatever the random choices, the generator called with target 1000
    and one coupon returns exactly [[1000]]. *)
Theorem scenario_1_returns_1000 s :
  ∃ s', generate_coupon_distribution 1000 1 s = Ok (Some [1000], s').
Proof.
  destruct (search_1000_1 s) as ([d a] & s' & Hsearch & Hd & _).
  cbn [fst] in Hd. subst d. exists s'.
  eapply generate_high; [lia|done].
Qed.

(** C9. Whatever the random choices, the generator called with target 4000
    and two coupons returns [[2000; 2000]], reached after at most two of
    the 1000 adjustment rounds; and no other distribution of two coupons
    sums to 4000. *)
Theorem scenario_4_returns_2000_2000 s :
  (∃ attempts s',
     search 4000 2 s = Ok (([2000; 2000], attempts), s') ∧
     0 ≤ attempts ≤ 2 ∧
     generate_coupon_distribution 4000 2 s = Ok (Some [2000; 2000], s')) ∧
  (∀ d, length d = 2%nat → (∀ v, v ∈ d → v ∈ COUPON_VALUES) →
        sum d = 4000 → d = [2000; 2000]).
Proof.
  split.
  - destruct (search_4000_2 s) as ([d a] & s' & Hsearch & Hd & Ha).
    cbn [fst snd] in Hd, Ha. subst d. exists a, s'.
    split; [done|]. split; [done|]. eapply generate_high; [lia|done].
  - intros [|a [|b [|? ?]]] Hlen Hd Hsum; try done.
    assert (a ∈ COUPON_VALUES) as Ha by (apply Hd; rewrite !elem_of_cons; auto).
    assert (b ∈ COUPON_VALUES) as Hb by (apply Hd; rewrite !elem_of_cons; auto).
    unfold sum in Hsum. simpl in Hsum.
    coupon_split Ha; coupon_split Hb; (done || lia).
Qed.

(** ** Reaching a feasible target *)

Lemma pick_index remaining v :
  v ∈ [500; 1000; 2000] → v - 250 ≤ remaining →
  let ups := filter (λ v', v' - 250 ≤ remaining) [500; 1000; 2000] in
  ups !! (upgrade_index v mod length ups)%nat = Some v.
Proof.
  rewrite !elem_of_cons, elem_of_nil. intros Hv Hcost. cbv zeta.
  rewrite !filter_cons, filter_nil.
  destruct Hv as [-> | [-> | [-> | []]]];
    repeat case_decide; try lia; reflexivity.
Qed.

Lemma seed_loop_pick i idxs d remaining s v Q :
  d !! i = Some 250 → v ∈ [500; 1000; 2000] → v - 250 ≤ remaining →
  stream s (position s) = upgrade_index v →
  returns (seed_loop idxs (<[i:=v]> d) (remaining - (v - 250))) (advance s) Q →
  returns (seed_loop (i :: idxs) d remaining) s Q.
Proof.
  intros Hcur Hv Hcost Hdraw Hrest.
  assert (remaining > 0) as Hrem.
  { rewrite !elem_of_cons, elem_of_nil in Hv. lia. }
  simpl. rewrite decide_False by lia.
  apply returns_bind. eapply returns_get_item; [done|].
  change (filter (λ v0, v0 > 250) COUPON_VALUES) with [500; 1000; 2000].
  pose proof (pick_index remaining v Hv Hcost) as Hpick.
  rewrite <-Hdraw in Hpick.
  simpl. rewrite bool_decide_eq_true_2 by done.
  destruct (truthy _) eqn:Hup.
  - apply returns_bind. destruct Hrest as (d' & s' & Hrun & HQ).
    exists v, (advance s). split; [by apply choice_at|].
    apply returns_bind, returns_set_item; [by eapply lookup_lt_Some|].
    by exists d', s'.
  - apply truthy_nil in Hup. by rewrite Hup in Hpick.
Qed.

(** With the draws of [choices_for], the seeding puts the upgrades [r]
    on the next positions and leaves the minimum on the [m] last ones. *)
Lemma seed_loop_reaches p r m s :
  Forall (λ v, v ∈ [500; 1000; 2000]) r →
  (∀ j v, r !! j = Some v →
          stream s (position s + j) = upgrade_index v) →
  returns (seed_loop (seq (length p) (length r + m))
                     (p ++ replicate (length r + m) 250)
                     (sum r - 250 * Z.of_nat (length r))) s
          (λ d _, d = p ++ r ++ replicate m 250).
Proof.
  intros Hr. revert p s. induction Hr as [|v r Hv Hr IH]; intros p s Hdraws.
  { apply seed_loop_break; [by left|done]. }
  assert (250 * Z.of_nat (length r) ≤ sum r) as Hsum.
  { clear -Hr. induction Hr as [|x r Hx _ IH]; [done|].
    rewrite !elem_of_cons, elem_of_nil in Hx.
    rewrite sum_cons, length_cons. lia. }
  change (length (v :: r) + m)%nat with (S (length r + m)).
  cbn [seq replicate].
  eapply seed_loop_pick; [| done | | |].
  - by rewrite lookup_app_r, Nat.sub_diag.
  - rewrite sum_cons, length_cons. lia.
  - rewrite <-(Hdraws 0%nat v) by done. f_equal. lia.
  - replace (length p) with (length p + 0)%nat at 2 by lia.
    rewrite insert_app_r. cbn [insert list_insert].
    replace (sum (v :: r) - 250 * Z.of_nat (length (v :: r)) - (v - 250))
      with (sum r - 250 * Z.of_nat (length r))
      by (rewrite sum_cons, length_cons; lia).
    specialize (IH (p ++ [v]) (advance s)).
    rewrite length_app, Nat.add_1_r, <-!app_assoc in IH.
    apply IH. intros j w Hw. simpl.
    rewrite <-(Hdraws (S j) w) by done. f_equal. lia.
Qed.

(** A distribution is its upgrades plus minimum coupons. *)
Lemma split_minimum d :
  valid d →
  let u := filter (λ v, v ≠ 250) d in
  Forall (λ v, v ∈ [500; 1000; 2000]) u ∧
  (length u ≤ length d)%nat ∧
  sum d = sum u + 250 * Z.of_nat (length d - length u).
Proof.
  intros Hd. cbv zeta. split; [|split].
  - apply Forall_forall. intros v [Hne Hv]%list_elem_of_filter.
    unfold valid in Hd. rewrite Forall_forall in Hd.
    apply Hd, coupon_cases in Hv. rewrite !elem_of_cons.
    destruct Hv as [-> | [-> | [-> | ->]]]; [done|auto..].
  - apply length_filter.
  - induction Hd as [|v d Hv Hd IH]; [done|].
    pose proof (length_filter (λ v, v ≠ 250) d) as Hlen.
    rewrite filter_cons.
    set (u := filter (λ v, v ≠ 250) d) in *.
    case_decide as Hne.
    + rewrite !sum_cons, !length_cons, IH.
      replace (S (length d) - S (length u))%nat
        with (length d - length u)%nat by lia.
      lia.
    + assert (v = 250) as -> by lia.
      rewrite sum_cons, length_cons, IH. lia.
Qed.

Lemma search_reaches d0 :
  valid d0 →
  let u := filter (λ v, v ≠ 250) d0 in
  returns (search (sum d0) (Z.of_nat (length d0))) (choices_for u)
    (λ r _, r = (u ++ replicate (length d0 - length u) 250, 0)).
Proof.
  intros Hd0 u. destruct (split_minimum d0 Hd0) as (Hu & Hlen & Hsum).
  fold u in Hu, Hlen, Hsum.
  set (m := (length d0 - length u)%nat) in *.
  unfold search. apply returns_bind, returns_ret.
  change (foldr Z.min 250 [500; 1000; 2000]) with 250.
  unfold range. rewrite Nat2Z.id, sum_replicate.
  replace (length d0) with (length u + m)%nat at 1 2 3 by lia.
  replace (sum d0 - Z.of_nat (length u + m)%nat * 250)
    with (sum u - 250 * Z.of_nat (length u)) by lia.
  apply returns_bind. eapply returns_mono.
  { apply (seed_loop_reaches [] u m); [done|].
    intros j v Hj. simpl. by rewrite Hj. }
  cbv beta. intros d s1 Hd. rewrite Hd, app_nil_l.
  apply adjust_loop_done; [|done].
  left. rewrite sum_app, sum_replicate. lia.
Qed.

(** A feasible target lies within the bounds of the feasibility checks. *)
Lemma feasible_within_bounds d0 :
  (∀ v, v ∈ d0 → v ∈ COUPON_VALUES) →
  Z.of_nat (length d0) * 250 ≤ sum d0 ≤ Z.of_nat (length d0) * 2000.
Proof.
  intros Hd0%Forall_forall. pose proof (valid_sum_bounds d0 Hd0). lia.
Qed.

(** C1, as amended. For every [target] and [count] for which some
    sequence of [count] denominations sums to [target], there is a sequence
    of random choices under which the generator returns a sequence of
    length [count], all of whose elements are denominations, summing
    exactly to [target]. *)
Theorem feasible_target_is_reachable target count :
  (∃ d0, Z.of_nat (length d0) = count ∧
         (∀ v, v ∈ d0 → v ∈ COUPON_VALUES) ∧ sum d0 = target) →
  ∃ s d s', generate_coupon_distribution target count s = Ok (Some d, s') ∧
            Z.of_nat (length d) = count ∧
            (∀ v, v ∈ d → v ∈ COUPON_VALUES) ∧
            sum d = target.
Proof.
  intros (d0 & <- & Hd0%Forall_forall & <-).
  pose proof (valid_sum_bounds d0 Hd0) as Hbounds.
  destruct (split_minimum d0 Hd0) as (Hu & Hlen & Hsum).
  set (u := filter (λ v, v ≠ 250) d0) in *.
  destruct (search_reaches d0 Hd0) as (r & s' & Hsearch & ->).
  fold u in Hsearch.
  exists (choices_for u), (u ++ replicate (length d0 - length u) 250), s'.
  split; [eapply generate_high; [lia|done]|].
  split; [rewrite length_app, length_replicate; lia|].
  split; [|rewrite sum_app, sum_replicate; lia].
  intros v [Hv|Hv]%elem_of_app.
  - rewrite Forall_forall in Hu. apply Hu in Hv.
    rewrite !elem_of_cons, elem_of_nil in Hv. apply coupon_cases. tauto.
  - apply elem_of_replicate in Hv as [-> _]. apply coupon_cases. auto.
Qed.

(** The second scenario of the specification: 750 over two coupons. *)
Lemma feasible_target_is_reachable_witness :
  (∃ d0, Z.of_nat (length d0) = 2 ∧
         (∀ v, v ∈ d0 → v ∈ COUPON_VALUES) ∧ sum d0 = 750) ∧
  ∃ s d s', generate_coupon_distribution 750 2 s = Ok (Some d, s') ∧
            Z.of_nat (length d) = 2 ∧
            (∀ v, v ∈ d → v ∈ COUPON_VALUES) ∧
            sum d = 750.
Proof.
  assert (∃ d0, Z.of_nat (length d0) = 2 ∧
                (∀ v, v ∈ d0 → v ∈ COUPON_VALUES) ∧ sum d0 = 750) as H.
  { exists [250; 500]. split; [reflexivity|]. split; [|reflexivity].
    intros v Hv. apply coupon_cases.
    rewrite !elem_of_cons, elem_of_nil in Hv. tauto. }
  split; [exact H|]. exact (feasible_target_is_reachable 750 2 H).
Defined.

(** A round that changes nothing is repeated until the budget is spent. *)
Lemma adjust_loop_stuck fuel target count d attempts s :
  sum d ≠ target → adjust_round (range count) target d s = Ok (d, s) →
  0 ≤ attempts ≤ 1000 → 1000 - attempts ≤ Z.of_nat fuel →
  adjust_loop fuel target count d attempts s = Ok ((d, 1000), s).
Proof.
  intros Hsum Hround. revert attempts.
  induction fuel as [|fuel IH]; intros attempts Hatt Hfuel; simpl.
  - rewrite decide_False by lia. unfold ret. repeat f_equal. lia.
  - case_decide as Hcond.
    + rewrite bind_run, Hround. apply IH; lia.
    + unfold ret. repeat f_equal. lia.
Qed.

(** On target 750 with one coupon every run seeds [[500]] with its single
    draw and then spends the 1000 rounds without a qualifying increase. *)
Lemma search_750_1 s : search 750 1 s = Ok (([500], 1000), advance s).
Proof.
  unfold search. rewrite bind_run, min_COUPON_VALUES, bind_run.
  assert (seed_loop (range 1) (replicate (Z.to_nat 1) 250)
                    (750 - sum (replicate (Z.to_nat 1) 250)) s
          = Ok ([500], advance s)) as ->.
  { change ((v <- choice [500] ;;
             d <- set_item [250] 0 v ;;
             seed_loop [] d (500 - (v - 250))) s = Ok ([500], advance s)).
    rewrite bind_run, (choice_at [500] s 500); [done|].
    by rewrite Nat.mod_1_r. }
  by apply adjust_loop_stuck.
Qed.

(** C1, as stated, fails: 750 lies between the minimum and the maximum
    for one coupon, yet no sequence of random choices makes the generator
    return one denomination that sums to 750. *)
Lemma bounds_do_not_make_target_reachable :
  (1 * 250 ≤ 750 ≤ 1 * 2000) ∧
  ¬ ∃ s d s', generate_coupon_distribution 750 1 s = Ok (Some d, s') ∧
              Z.of_nat (length d) = 1 ∧
              (∀ v, v ∈ d → v ∈ COUPON_VALUES) ∧
              sum d = 750.
Proof.
  split; [lia|]. intros (s & d & s' & Hrun & _ & _ & Hsum).
  erewrite generate_high in Hrun; [|lia|apply search_750_1].
  injection Hrun as <- _. done.
Qed.

(** ** The alternative builder *)

Lemma sorted_permutation a b : a ≡ₚ b → sorted a = sorted b.
Proof.
  intros Hab. unfold sorted.
  apply (Sorted_unique Z.le); [apply Sorted_merge_sort; apply _..|].
  by rewrite !merge_sort_Permutation.
Qed.

Lemma alternatives_loop_spec attempts target count num_alternatives
    alternatives calls s :
  Z.of_nat (length alternatives) < num_alternatives →
  collected target count num_alternatives alternatives calls →
  returns (alternatives_loop attempts target count num_alternatives
                             alternatives calls) s (λ r _,
    collected target count num_alternatives r.1 r.2 ∧
    Z.of_nat (length r.1) ≤ num_alternatives ∧
    (length r.2 ≤ length calls + length attempts)%nat ∧
    (length r.2 = (length calls + length attempts)%nat ∨
     Z.of_nat (length r.1) = num_alternatives)).
Proof.
  revert alternatives calls s.
  induction attempts as [|n attempts IH]; intros alts calls s Hroom Hcol; simpl.
  { apply returns_ret. simpl.
    split; [done|]. split; [lia|]. split; [lia|]. left; lia. }
  destruct Hcol as (Hsums & Hnodup & Hcalls).
  set (calls' := calls ++ [length alts]).
  assert (Forall (λ n, Z.of_nat n < num_alternatives) calls') as Hcalls'.
  { apply Forall_app. split; [done|]. by apply Forall_singleton. }
  assert (length calls' = S (length calls)) as Hlen'.
  { unfold calls'. rewrite length_app. simpl. lia. }
  assert (∀ alts' s0,
    Z.of_nat (length alts') < num_alternatives →
    collected target count num_alternatives alts' calls' →
    returns (alternatives_loop attempts target count num_alternatives
                               alts' calls') s0 (λ r _,
      collected target count num_alternatives r.1 r.2 ∧
      Z.of_nat (length r.1) ≤ num_alternatives ∧
      (length r.2 ≤ length calls + S (length attempts))%nat ∧
      (length r.2 = (length calls + S (length attempts))%nat ∨
       Z.of_nat (length r.1) = num_alternatives))) as Hnext.
  { intros alts' s0 Hroom' Hcol'. eapply returns_mono; [by apply IH|].
    cbv beta. intros r _ (Hcol & Hmax & Hle & Hstop).
    split; [done|]. split; [done|]. split; [lia|].
    destruct Hstop; [left; lia|by right]. }
  assert (∀ s0, returns (alternatives_loop attempts target count
                           num_alternatives alts calls') s0 (λ r _,
    collected target count num_alternatives r.1 r.2 ∧
    Z.of_nat (length r.1) ≤ num_alternatives ∧
    (length r.2 ≤ length calls + S (length attempts))%nat ∧
    (length r.2 = (length calls + S (length attempts))%nat ∨
     Z.of_nat (length r.1) = num_alternatives))) as Hskip.
  { intros s0. by apply Hnext. }
  apply returns_bind. eapply returns_mono; [apply generate_spec|].
  cbv beta. intros [d|] s1 Hd; [|done].
  destruct Hd as (_ & Hlen & _ & _).
  destruct (truthy d && bool_decide (sum d = target)) eqn:Hok; [|done].
  apply andb_true_iff in Hok as [Hne%truthy_ne Hsum%bool_decide_eq_true].
  case_decide as Hnew; [|done].
  assert (Z.of_nat (length d) = count) as Hcount.
  { destruct d; [done|]. rewrite length_cons in *. lia. }
  assert (collected target count num_alternatives (alts ++ [d]) calls')
    as Hcol.
  { split; [|split; [|done]].
    - intros a [Ha| ->%list_elem_of_singleton]%elem_of_app; [|done].
      by apply Hsums.
    - rewrite fmap_app. apply NoDup_app. split; [done|]. split.
      + intros x Hx ->%list_elem_of_singleton. done.
      + apply NoDup_singleton. }
  assert (length (alts ++ [d]) = S (length alts)) as Hgrow.
  { rewrite length_app. simpl. lia. }
  case_decide as Hfull.
  - apply returns_ret. simpl.
    split; [done|]. split; [lia|]. split; [lia|]. right; lia.
  - apply Hnext; [lia|done].
Qed.

Lemma alternatives_run_spec target count num_alternatives s :
  0 < num_alternatives →
  returns (alternatives_run target count num_alternatives) s (λ r _,
    collected target count num_alternatives r.1 r.2 ∧
    Z.of_nat (length r.1) ≤ num_alternatives ∧
    (length r.2 ≤ 100)%nat ∧
    (length r.2 = 100%nat ∨ Z.of_nat (length r.1) = num_alternatives)).
Proof.
  intros Hmax. unfold alternatives_run.
  eapply returns_mono.
  { apply alternatives_loop_spec; [simpl; lia|].
    split; [by intros a ?%elem_of_nil|]. split; constructor. }
  cbv beta. intros r _ (Hcol & Hle & Hcalls & Hstop).
  unfold range in Hcalls, Hstop. rewrite length_seq in Hcalls, Hstop.
  change (length [] + Z.to_nat 100)%nat with 100%nat in Hcalls, Hstop.
  done.
Qed.

Lemma alternatives_of_run target count num_alternatives s alts calls s' :
  alternatives_run target count num_alternatives s = Ok ((alts, calls), s') →
  generate_alternative_combinations target count num_alternatives s
  = Ok (alts, s').
Proof.
  intros Hrun. unfold generate_alternative_combinations.
  by rewrite bind_run, Hrun.
Qed.

(** ** The claims about the alternative builder *)

(** C4. For positive [target], [count] and [max_alternatives] and every
    sequence of random choices, every entry of the returned sequence sums
    exactly to [target] and has length exactly [count]. *)
Theorem alternatives_sum_and_length target count max_alternatives s :
  0 < target → 0 < count → 0 < max_alternatives →
  ∃ alts s',
    generate_alternative_combinations target count max_alternatives s
    = Ok (alts, s') ∧
    ∀ a, a ∈ alts → sum a = target ∧ Z.of_nat (length a) = count.
Proof.
  intros _ _ Hmax.
  destruct (alternatives_run_spec target count max_alternatives s Hmax)
    as ([alts calls] & s' & Hrun & (Hsums & _) & _).
  exists alts, s'. split; [by eapply alternatives_of_run|done].
Qed.

Lemma alternatives_sum_and_length_witness :
  (0 < 3000 ∧ 0 < 4 ∧ 0 < 5) ∧
  ∃ alts s',
    generate_alternative_combinations 3000 4 5 count_up = Ok (alts, s') ∧
    ∀ a, a ∈ alts → sum a = 3000 ∧ Z.of_nat (length a) = 4.
Proof.
  split; [lia|]. apply (alternatives_sum_and_length 3000 4 5 count_up); lia.
Defined.

(** C5. For positive [target], [count] and [max_alternatives] and every
    sequence of random choices, two entries at different positions of the
    returned sequence have different sorted forms; they are not the same
    multiset. *)
Theorem alternatives_pairwise_distinct target count max_alternatives s :
  0 < target → 0 < count → 0 < max_alternatives →
  ∃ alts s',
    generate_alternative_combinations target count max_alternatives s
    = Ok (alts, s') ∧
    ∀ i j a b, i ≠ j → alts !! i = Some a → alts !! j = Some b →
               sorted a ≠ sorted b ∧ ¬ a ≡ₚ b.
Proof.
  intros _ _ Hmax.
  destruct (alternatives_run_spec target count max_alternatives s Hmax)
    as ([alts calls] & s' & Hrun & (_ & Hnodup & _) & _).
  cbn [fst] in Hnodup.
  exists alts, s'. split; [by eapply alternatives_of_run|].
  intros i j a b Hij Ha Hb.
  assert (sorted a ≠ sorted b) as Hne.
  { intros Heq. apply Hij.
    apply (NoDup_lookup (sorted <$> alts) i j (sorted a) Hnodup).
    - by rewrite list_lookup_fmap, Ha.
    - by rewrite list_lookup_fmap, Hb, Heq. }
  split; [done|]. intros Hperm. by apply Hne, sorted_permutation.
Qed.

Lemma alternatives_pairwise_distinct_witness :
  (0 < 3000 ∧ 0 < 4 ∧ 0 < 5) ∧
  ∃ alts s',
    generate_alternative_combinations 3000 4 5 count_up = Ok (alts, s') ∧
    ∀ i j a b, i ≠ j → alts !! i = Some a → alts !! j = Some b →
               sorted a ≠ sorted b ∧ ¬ a ≡ₚ b.
Proof.
  split; [lia|].
  apply (alternatives_pairwise_distinct 3000 4 5 count_up); lia.
Defined.

(** C6. For positive [target], [count] and [max_alternatives] and every
    sequence of random choices, the builder returns at most
    [max_alternatives] entries and invokes the generator at most 100
    times; every invocation is made while fewer than [max_alternatives]
    entries are collected, so the builder stops as soon as that many are,
    and it stops before the 100th invocation for no other reason. *)
Theorem alternatives_bounded target count max_alternatives s :
  0 < target → 0 < count → 0 < max_alternatives →
  ∃ alts calls s',
    alternatives_run target count max_alternatives s
    = Ok ((alts, calls), s') ∧
    generate_alternative_combinations target count max_alternatives s
    = Ok (alts, s') ∧
    Z.of_nat (length alts) ≤ max_alternatives ∧
    (length calls ≤ 100)%nat ∧
    (∀ n, n ∈ calls → Z.of_nat n < max_alternatives) ∧
    (length calls = 100%nat ∨ Z.of_nat (length alts) = max_alternatives).
Proof.
  intros _ _ Hmax.
  destruct (alternatives_run_spec target count max_alternatives s Hmax)
    as ([alts calls] & s' & Hrun & (_ & _ & Hcalls) & Hle & Hn & Hstop).
  cbn [fst snd] in *.
  exists alts, calls, s'.
  split; [done|]. split; [by eapply alternatives_of_run|].
  split; [done|]. split; [done|]. split; [|done].
  by apply Forall_forall.
Qed.

Lemma alternatives_bounded_witness :
  (0 < 3000 ∧ 0 < 4 ∧ 0 < 5) ∧
  ∃ alts calls s',
    alternatives_run 3000 4 5 count_up = Ok ((alts, calls), s') ∧
    generate_alternative_combinations 3000 4 5 count_up = Ok (alts, s') ∧
    Z.of_nat (length alts) ≤ 5 ∧
    (length calls ≤ 100)%nat ∧
    (∀ n, n ∈ calls → Z.of_nat n < 5) ∧
    (length calls = 100%nat ∨ Z.of_nat (length alts) = 5).
Proof.
  split; [lia|]. apply (alternatives_bounded 3000 4 5 count_up); lia.
Defined.

(** ** Further properties of the generator *)

Lemma valid_sum_mod d : valid d → sum d `mod` 250 = 0.
Proof.
  induction 1 as [|v d Hv _ IH]; [done|].
  rewrite sum_cons. apply coupon_cases in Hv.
  rewrite Z.add_mod, IH by done.
  destruct Hv as [-> | [-> | [-> | ->]]]; done.
Qed.

(** When no distribution of [count] denominations sums to the target, the
    search spends its whole budget and ends below the target. *)
Lemma search_infeasible target count s :
  0 ≤ count → count * 250 ≤ target →
  (∀ d, valid d → length d = Z.to_nat count → sum d ≠ target) →
  ∃ d s', search target count s = Ok ((d, 1000), s') ∧
          length d = Z.to_nat count ∧ valid d ∧ sum d < target.
Proof.
  intros Hcount Hhigh Hnone.
  destruct (search_spec target count s)
    as ([d a] & s' & Hsearch & Hlen & Hd & _ & Hstop & Hle); cbn [fst snd] in *.
  pose proof (Hnone d Hd Hlen) as Hne.
  destruct Hstop as [?| ->]; [done|].
  exists d, s'. repeat split; [done..|]. lia.
Qed.

(** X1. A target that is not a multiple of 250 is never reached: for
    [count] coupons (not negative) and [target >= count * 250] with
    [target mod 250 <> 0], whatever the random choices, the search runs
    all of its 1000 rounds and the generator returns [count] coupons whose
    sum is strictly below [target]. *)
Theorem off_grid_target_never_reached target count s :
  0 ≤ count → count * 250 ≤ target → target `mod` 250 ≠ 0 →
  ∃ d s', search target count s = Ok ((d, 1000), s') ∧
          generate_coupon_distribution target count s = Ok (Some d, s') ∧
          Z.of_nat (length d) = count ∧
          sum d < target.
Proof.
  intros Hcount Hhigh Hmod.
  destruct (search_infeasible target count s Hcount Hhigh)
    as (d & s' & Hsearch & Hlen & Hd & Hlt).
  { intros d Hd _ Hsum. apply Hmod. rewrite <-Hsum. by apply valid_sum_mod. }
  exists d, s'. split; [done|].
  split; [by eapply generate_high|]. split; [lia|done].
Qed.

Lemma off_grid_target_never_reached_witness :
  (0 ≤ 3 ∧ 3 * 250 ≤ 1100 ∧ 1100 `mod` 250 ≠ 0) ∧
  ∃ d s', search 1100 3 count_up = Ok ((d, 1000), s') ∧
          generate_coupon_distribution 1100 3 count_up = Ok (Some d, s') ∧
          Z.of_nat (length d) = 3 ∧
          sum d < 1100.
Proof.
  assert (0 ≤ 3 ∧ 3 * 250 ≤ 1100 ∧ 1100 `mod` 250 ≠ 0) as H.
  { split; [lia|]. split; [lia|]. vm_compute. discriminate. }
  split; [exact H|].
  apply (off_grid_target_never_reached 1100 3 count_up); apply H.
Defined.

(** At the minimum target the seeding stops at its first test and the
    [while] loop is not entered. *)
Lemma search_minimum count s :
  0 ≤ count →
  search (count * 250) count s
  = Ok ((replicate (Z.to_nat count) 250, 0), s).
Proof.
  intros Hcount.
  unfold search. rewrite bind_run, min_COUPON_VALUES, bind_run.
  assert (sum (replicate (Z.to_nat count) 250) = count * 250) as Hsum
    by (rewrite sum_replicate; lia).
  rewrite Hsum, Z.sub_diag.
  assert (∀ idxs d, seed_loop idxs d 0 s = Ok (d, s)) as ->.
  { by intros [|i idxs] d. }
  destruct (adjust_loop_done 1000 (count * 250) count
              (replicate (Z.to_nat count) 250) 0 s
              (λ r s', r = (replicate (Z.to_nat count) 250, 0) ∧ s' = s))
    as (r & s' & -> & -> & ->); [by left|done|done].
Qed.

(** X2. The minimum target is met without a single draw: for [count]
    coupons (not negative) and [target = count * 250], the generator
    returns [count] coupons of 250, leaves the randomness source as it was
    and runs no adjustment round. *)
Theorem minimum_target_needs_no_draw count s :
  0 ≤ count →
  search (count * 250) count s
  = Ok ((replicate (Z.to_nat count) 250, 0), s) ∧
  generate_coupon_distribution (count * 250) count s
  = Ok (Some (replicate (Z.to_nat count) 250), s).
Proof.
  intros Hcount. pose proof (search_minimum count s Hcount) as Hsearch.
  split; [done|]. eapply generate_high; [lia|done].
Qed.

Lemma minimum_target_needs_no_draw_witness :
  0 ≤ 4 ∧
  search (4 * 250) 4 count_up
  = Ok ((replicate (Z.to_nat 4) 250, 0), count_up) ∧
  generate_coupon_distribution (4 * 250) 4 count_up
  = Ok (Some (replicate (Z.to_nat 4) 250), count_up).
Proof.
  split; [lia|]. apply (minimum_target_needs_no_draw 4 count_up). lia.
Defined.

(** X3. No coupons asked for: for [count <= 0] and [target >= count * 250]
    the generator raises nothing and returns the empty list, without a
    draw. *)
Theorem no_coupons_gives_empty_list target count s :
  count ≤ 0 → count * 250 ≤ target →
  generate_coupon_distribution target count s = Ok (Some [], s).
Proof.
  intros Hcount Hhigh.
  assert (Z.to_nat count = 0%nat) as Hn by lia.
  destruct (decide (target = 0)) as [->|Hne].
  - eapply generate_high; [lia|]. unfold search.
    rewrite bind_run, min_COUPON_VALUES, bind_run. unfold range.
    rewrite Hn. simpl seq. simpl replicate. simpl seed_loop. unfold ret at 1.
    destruct (adjust_loop_done 1000 0 count [] 0 s
                (λ r s', r = ([], 0) ∧ s' = s))
      as (r & s' & -> & -> & ->); [by left|done|done].
  - eapply (generate_high _ _ _ _ 1000); [lia|]. unfold search.
    rewrite bind_run, min_COUPON_VALUES, bind_run. unfold range.
    rewrite Hn. simpl seq. simpl replicate. simpl seed_loop. unfold ret at 1.
    apply adjust_loop_stuck; [done| |lia|done].
    unfold range. by rewrite Hn.
Qed.

Lemma no_coupons_gives_empty_list_witness :
  (0 ≤ 0 ∧ 0 * 250 ≤ 500) ∧
  generate_coupon_distribution 500 0 count_up = Ok (Some [], count_up).
Proof.
  split; [lia|]. apply (no_coupons_gives_empty_list 500 0 count_up); lia.
Defined.

(** *** The number of draws *)


Lemma valid_lookup d i v : valid d → d !! i = Some v → v ∈ COUPON_VALUES.
Proof.
  unfold valid. rewrite Forall_forall. intros Hd Hi.
  by eapply Hd, list_elem_of_lookup_2.
Qed.






(** *** The maximum target *)

Lemma all_max_replicate d :
  valid d → sum d = 2000 * Z.of_nat (length d) →
  d = replicate (length d) 2000.
Proof.
  induction 1 as [|v d Hv Hd IH]; [done|].
  pose proof (valid_sum_bounds d Hd) as Hbounds.
  apply coupon_cases in Hv. rewrite sum_cons, length_cons. intros Hsum.
  simpl. f_equal; [lia|]. apply IH. lia.
Qed.

Lemma deficit_covers d i cur :
  valid d → d !! i = Some cur →
  2000 - cur ≤ 2000 * Z.of_nat (length d) - sum d.
Proof.
  intros Hd. revert i.
  induction Hd as [|v d Hv Hd IH]; intros [|i] Hi; simplify_eq/=.
  - pose proof (valid_sum_bounds d Hd).
    change (2000 - cur ≤ 2000 * Z.of_nat (S (length d)) - (cur + sum d)).
    lia.
  - apply coupon_cases in Hv. specialize (IH i Hi).
    change (2000 - cur ≤ 2000 * Z.of_nat (S (length d)) - (v + sum d)).
    lia.
Qed.

(** With the maximum as target, a round lifts every coupon that is not
    yet 2000. *)
Lemma adjust_round_climbs lo lo' k i d s :
  climbs lo lo' → (i + k)%nat = length d → valid d →
  (∀ j v, d !! j = Some v → lo ≤ v ∧ ((j < i)%nat → lo' ≤ v)) →
  returns (adjust_round (seq i k) (2000 * Z.of_nat (length d)) d) s
    (λ d' _, length d' = length d ∧ valid d' ∧ Forall (λ v, lo' ≤ v) d').
Proof.
  intros [Hlo Hclimb]. revert i d s.
  induction k as [|k IH]; intros i d s Hik Hd Hlevel.
  { apply returns_ret. split; [done|]. split; [done|].
    apply Forall_forall. intros v [j Hj]%list_elem_of_lookup_1.
    apply (Hlevel j v Hj). apply lookup_lt_Some in Hj. lia. }
  cbn [seq adjust_round]. case_decide as Hsum.
  { apply returns_ret. split; [done|]. split; [done|].
    rewrite (all_max_replicate d Hd Hsum).
    apply Forall_replicate. lia. }
  pose proof (valid_sum_bounds d Hd) as Hbounds.
  destruct (lookup_lt_is_Some_2 d i) as [cur Hcur]; [lia|].
  pose proof (valid_lookup d i cur Hd Hcur) as Hcurv.
  apply returns_bind. eapply returns_get_item; [done|].
  rewrite decide_True by lia.
  destruct (truthy _) eqn:Hinc.
  - apply truthy_ne in Hinc.
    apply returns_bind, returns_choice; [done|].
    intros v [[Hgt Hcost] Hv]%list_elem_of_filter.
    apply returns_bind, returns_set_item; [by eapply lookup_lt_Some|].
    pose proof (Hlevel i cur Hcur) as [Hcurlo _].
    pose proof (Hclimb cur v Hcurv Hv Hcurlo Hgt) as Hvlo.
    eapply returns_mono.
    { rewrite <-(length_insert d i v).
      apply (IH (S i)); [rewrite length_insert; lia|by apply Forall_insert|].
      intros j w Hj. destruct (decide (i = j)) as [<-|Hij].
      - rewrite list_lookup_insert_eq in Hj by (by eapply lookup_lt_Some).
        injection Hj as <-. split; lia.
      - rewrite list_lookup_insert_ne in Hj by done.
        destruct (Hlevel j w Hj) as [? Hbelow]. split; [done|].
        intros ?. apply Hbelow. lia. }
    cbv beta. intros d' _ (Hlen & Hd' & Hall).
    rewrite length_insert in Hlen. done.
  - apply truthy_nil in Hinc.
    assert (cur = 2000) as ->.
    { destruct (decide (cur = 2000)) as [|Hne]; [done|]. exfalso.
      pose proof (deficit_covers d i cur Hd Hcur).
      apply (filter_nil_not_elem_of _ _ 2000 Hinc).
      - apply coupon_cases in Hcurv. lia.
      - apply coupon_cases. auto. }
    apply (IH (S i)); [lia|done|].
    intros j w Hj. destruct (Hlevel j w Hj) as [? Hbelow]. split; [done|].
    intros Hlt. destruct (decide (i = j)) as [<-|Hij].
    + rewrite Hcur in Hj. injection Hj as <-. lia.
    + apply Hbelow. lia.
Qed.

(** One more round of the [while] loop at the maximum target. *)
Lemma adjust_loop_climbs lo lo' fuel count d a s (bound : Z) :
  climbs lo lo' → length d = Z.to_nat count → 0 ≤ count → valid d →
  Forall (λ v, lo ≤ v) d → a < 1000 → a ≤ bound →
  (∀ d' s', length d' = Z.to_nat count → valid d' →
            Forall (λ v, lo' ≤ v) d' →
            returns (adjust_loop fuel (count * 2000) count d' (a + 1)) s'
              (λ r _, r.1 = replicate (Z.to_nat count) 2000 ∧ r.2 ≤ bound)) →
  returns (adjust_loop (S fuel) (count * 2000) count d a) s
    (λ r _, r.1 = replicate (Z.to_nat count) 2000 ∧ r.2 ≤ bound).
Proof.
  intros Hclimbs Hlen Hcount Hd Hall Ha Hbound Hnext.
  assert (count * 2000 = 2000 * Z.of_nat (length d)) as Htarget by lia.
  destruct (decide (sum d = count * 2000)) as [Hsum|Hsum].
  { apply adjust_loop_done; [by left|]. split; [|done].
    cbn [fst]. rewrite <-Hlen. apply all_max_replicate; [done|lia]. }
  apply adjust_loop_step; [done..|].
  eapply returns_mono.
  { unfold range. rewrite Htarget, <-Hlen.
    apply (adjust_round_climbs lo lo' (length d) 0 d s Hclimbs);
      [done|done|].
    intros j v Hj. split; [|lia].
    rewrite Forall_forall in Hall. by eapply Hall, list_elem_of_lookup_2. }
  cbv beta. intros d' s' (Hlen' & Hd' & Hall').
  apply Hnext; [congruence|done..].
Qed.

Lemma search_maximum count s :
  0 ≤ count →
  returns (search (count * 2000) count) s (λ r _,
    r.1 = replicate (Z.to_nat count) 2000 ∧ r.2 ≤ 3).
Proof.
  intros Hcount. unfold search. apply returns_bind, returns_ret.
  change (foldr Z.min 250 [500; 1000; 2000]) with 250.
  apply returns_bind. eapply returns_mono.
  { apply seed_loop_spec;
      [apply range_in_bounds, length_replicate|apply valid_replicate]. }
  cbv beta. intros d1 s1 (Hlen1 & Hd1 & _).
  rewrite length_replicate in Hlen1.
  assert (∀ lo d, valid d → (∀ v, v ∈ COUPON_VALUES → lo ≤ v) →
                  Forall (λ v, lo ≤ v) d) as Hfloor.
  { intros lo d Hd Hlo. eapply Forall_impl; [exact Hd|]. done. }
  change 1000%nat with (S (S (S 997))).
  eapply (adjust_loop_climbs 250 500);
    [|done|done|done| |lia|lia|].
  { split; [lia|]. intros cur v. rewrite !coupon_cases. lia. }
  { apply Hfloor; [done|]. intros v. rewrite coupon_cases. lia. }
  intros d2 s2 Hlen2 Hd2 Hall2.
  eapply (adjust_loop_climbs 500 1000);
    [|done|done|done|done|lia|lia|].
  { split; [lia|]. intros cur v. rewrite !coupon_cases. lia. }
  intros d3 s3 Hlen3 Hd3 Hall3.
  eapply (adjust_loop_climbs 1000 2000);
    [|done|done|done|done|lia|lia|].
  { split; [lia|]. intros cur v. rewrite !coupon_cases. lia. }
  intros d4 s4 Hlen4 Hd4 Hall4.
  apply adjust_loop_done.
  - left. pose proof (valid_sum_bounds d4 Hd4) as Hbounds.
    assert (2000 * Z.of_nat (length d4) ≤ sum d4); [|lia].
    clear -Hall4. induction Hall4 as [|v d Hv _ IH]; [done|].
    rewrite sum_cons, length_cons. lia.
  - cbn [fst snd]. split; [|lia].
    rewrite <-Hlen4. apply all_max_replicate; [done|].
    pose proof (valid_sum_bounds d4 Hd4) as Hbounds.
    assert (2000 * Z.of_nat (length d4) ≤ sum d4); [|lia].
    clear -Hall4. induction Hall4 as [|v d Hv _ IH]; [done|].
    rewrite sum_cons, length_cons. lia.
Qed.

(** X5. The maximum target is always met: for [count] coupons (not
    negative) and [target = count * 2000], whatever the random choices,
    the generator returns [count] coupons of 2000, after at most three of
    the 1000 adjustment rounds. *)
Theorem maximum_target_always_reached count s :
  0 ≤ count →
  ∃ attempts s',
    search (count * 2000) count s
    = Ok ((replicate (Z.to_nat count) 2000, attempts), s') ∧
    attempts ≤ 3 ∧
    generate_coupon_distribution (count * 2000) count s
    = Ok (Some (replicate (Z.to_nat count) 2000), s').
Proof.
  intros Hcount.
  destruct (search_maximum count s Hcount) as ([d a] & s' & Hrun & Hd & Ha).
  cbn [fst snd] in *. subst d. exists a, s'.
  split; [done|]. split; [done|]. eapply generate_high; [lia|done].
Qed.

Lemma maximum_target_always_reached_witness :
  0 ≤ 3 ∧
  ∃ attempts s',
    search (3 * 2000) 3 count_up
    = Ok ((replicate (Z.to_nat 3) 2000, attempts), s') ∧
    attempts ≤ 3 ∧
    generate_coupon_distribution (3 * 2000) 3 count_up
    = Ok (Some (replicate (Z.to_nat 3) 2000), s').
Proof.
  split; [lia|]. apply (maximum_target_always_reached 3 count_up). lia.
Defined.

(** ** Further properties of the alternative builder *)

Lemma generate_Some target count s d s' :
  generate_coupon_distribution target count s = Ok (Some d, s') →
  length d = Z.to_nat count ∧ valid d.
Proof.
  intros Hrun.
  destruct (generate_spec target count s) as (r & s1 & Hrun' & Hr).
  rewrite Hrun in Hrun'. injection Hrun' as <- <-. tauto.
Qed.

(** A rule for the loop of the builder: [I n] holds when [n] attempts are
    left, [Q] when the loop is left. *)
Lemma alternatives_loop_rule
    (I : nat → list (list Z) → list nat → Prop)
    (Q : list (list Z) → list nat → Prop) target count num_alternatives :
  (∀ alts calls, I 0%nat alts calls → Q alts calls) →
  (∀ n alts calls r s0 s1,
     I (S n) alts calls →
     generate_coupon_distribution target count s0 = Ok (r, s1) →
     match r with
     | None => True
     | Some d => d = [] ∨ sum d ≠ target ∨ sorted d ∈ sorted <$> alts
     end →
     I n alts (calls ++ [length alts])) →
  (∀ n alts calls d s0 s1,
     I (S n) alts calls →
     generate_coupon_distribution target count s0 = Ok (Some d, s1) →
     d ≠ [] → sum d = target → sorted d ∉ sorted <$> alts →
     if decide (Z.of_nat (length (alts ++ [d])) >= num_alternatives)
     then Q (alts ++ [d]) (calls ++ [length alts])
     else I n (alts ++ [d]) (calls ++ [length alts])) →
  ∀ attempts alts calls s,
    I (length attempts) alts calls →
    returns (alternatives_loop attempts target count num_alternatives
                               alts calls) s (λ r _, Q r.1 r.2).
Proof.
  intros Hexit Hskip Hadd.
  induction attempts as [|n attempts IH]; intros alts calls s HI; simpl.
  { apply returns_ret. by apply Hexit. }
  destruct (generate_spec target count s) as (r & s1 & Hrun & _).
  apply returns_bind. exists r, s1. split; [done|].
  destruct r as [d|];
    [|apply IH; by apply (Hskip _ alts calls None s s1)].
  destruct (truthy d && bool_decide (sum d = target)) eqn:Hok.
  - apply andb_true_iff in Hok as [Hne%truthy_ne Hsum%bool_decide_eq_true].
    case_decide as Hnew.
    + specialize (Hadd (length attempts) alts calls d s s1 HI Hrun Hne Hsum
                       Hnew).
      case_decide; [by apply returns_ret|by apply IH].
    + apply IH. apply (Hskip _ alts calls (Some d) s s1); [done..|].
      right. right. by destruct (decide (sorted d ∈ sorted <$> alts)).
  - apply IH. apply (Hskip _ alts calls (Some d) s s1); [done..|].
    apply andb_false_iff in Hok as [Hnil%truthy_nil|Hsum%bool_decide_eq_false];
      auto.
Qed.

Lemma alternatives_run_rule
    (I : nat → list (list Z) → list nat → Prop)
    (Q : list (list Z) → list nat → Prop) target count num_alternatives s :
  (∀ alts calls, I 0%nat alts calls → Q alts calls) →
  (∀ n alts calls r s0 s1,
     I (S n) alts calls →
     generate_coupon_distribution target count s0 = Ok (r, s1) →
     match r with
     | None => True
     | Some d => d = [] ∨ sum d ≠ target ∨ sorted d ∈ sorted <$> alts
     end →
     I n alts (calls ++ [length alts])) →
  (∀ n alts calls d s0 s1,
     I (S n) alts calls →
     generate_coupon_distribution target count s0 = Ok (Some d, s1) →
     d ≠ [] → sum d = target → sorted d ∉ sorted <$> alts →
     if decide (Z.of_nat (length (alts ++ [d])) >= num_alternatives)
     then Q (alts ++ [d]) (calls ++ [length alts])
     else I n (alts ++ [d]) (calls ++ [length alts])) →
  I 100%nat [] [] →
  ∃ alts calls s',
    alternatives_run target count num_alternatives s
    = Ok ((alts, calls), s') ∧
    generate_alternative_combinations target count num_alternatives s
    = Ok (alts, s') ∧
    Q alts calls.
Proof.
  intros Hexit Hskip Hadd HI.
  destruct (alternatives_loop_rule I Q target count num_alternatives
              Hexit Hskip Hadd (range 100) [] [] s)
    as ([alts calls] & s' & Hrun & HQ).
  { unfold range. by rewrite length_seq. }
  exists alts, calls, s'. split; [done|].
  split; [by eapply alternatives_of_run|done].
Qed.

(** X6. Whatever the inputs and the random choices, every element of every
    entry returned by the builder is a denomination. *)
Theorem alternatives_hold_denominations target count num_alternatives s :
  ∃ alts s',
    generate_alternative_combinations target count num_alternatives s
    = Ok (alts, s') ∧
    ∀ a v, a ∈ alts → v ∈ a → v ∈ COUPON_VALUES.
Proof.
  destruct (alternatives_run_rule
              (λ _ alts _, Forall valid alts) (λ alts _, Forall valid alts)
              target count num_alternatives s)
    as (alts & calls & s' & _ & Hrun & Hvalid); [done|done| |done|].
  - intros n alts calls d s0 s1 HI [_ Hd]%generate_Some _ _ _.
    assert (Forall valid (alts ++ [d])).
    { apply Forall_app. split; [done|]. by apply Forall_singleton. }
    by case_decide.
  - exists alts, s'. split; [done|]. intros a v Ha Hv.
    rewrite Forall_forall in Hvalid. specialize (Hvalid a Ha).
    unfold valid in Hvalid. rewrite Forall_forall in Hvalid. auto.
Qed.

(** X7. When no distribution of [count] denominations sums to [target],
    the builder returns the empty list, after invoking the generator on
    each of its 100 attempts, whatever the random choices. *)
Theorem alternatives_of_infeasible_target target count num_alternatives s :
  (∀ d, Z.of_nat (length d) = count → (∀ v, v ∈ d → v ∈ COUPON_VALUES) →
        sum d ≠ target) →
  ∃ calls s',
    alternatives_run target count num_alternatives s
    = Ok (([], calls), s') ∧
    generate_alternative_combinations target count num_alternatives s
    = Ok ([], s') ∧
    length calls = 100%nat.
Proof.
  intros Hnone.
  destruct (alternatives_run_rule
              (λ n alts calls, alts = [] ∧ (length calls + n = 100)%nat)
              (λ alts calls, alts = [] ∧ length calls = 100%nat)
              target count num_alternatives s)
    as (alts & calls & s' & Hrun & Hgen & -> & Hcalls).
  - intros alts calls [-> Hn]. split; [done|lia].
  - intros n alts calls r s0 s1 [-> Hn] _ _. split; [done|].
    rewrite length_app. simpl. lia.
  - intros n alts calls d s0 s1 _ [Hlen Hd]%generate_Some Hne Hsum _.
    exfalso. apply (Hnone d); [|by apply Forall_forall|done].
    destruct d; [done|]. rewrite length_cons in *. lia.
  - done.
  - by exists calls, s'.
Qed.

Lemma alternatives_of_infeasible_target_witness :
  (∀ d, Z.of_nat (length d) = 1 → (∀ v, v ∈ d → v ∈ COUPON_VALUES) →
        sum d ≠ 750) ∧
  ∃ calls s',
    alternatives_run 750 1 5 count_up = Ok (([], calls), s') ∧
    generate_alternative_combinations 750 1 5 count_up = Ok ([], s') ∧
    length calls = 100%nat.
Proof.
  assert (∀ d, Z.of_nat (length d) = 1 →
               (∀ v, v ∈ d → v ∈ COUPON_VALUES) → sum d ≠ 750) as H.
  { intros [|a [|? ?]] Hlen Hd; simpl in Hlen; try lia.
    assert (a ∈ COUPON_VALUES) as Ha by (apply Hd; rewrite elem_of_cons; auto).
    unfold sum. simpl. apply coupon_cases in Ha. lia. }
  split; [exact H|].
  exact (alternatives_of_infeasible_target 750 1 5 count_up H).
Defined.



(** When the generator has a single possible result, the builder returns
    it alone: at once when at most one alternative is asked for, after
    100 attempts otherwise. *)
Lemma alternatives_of_single_result target count num_alternatives d0 s :
  (∀ s0, ∃ s1,
     generate_coupon_distribution target count s0 = Ok (Some d0, s1)) →
  d0 ≠ [] → sum d0 = target →
  ∃ calls s',
    alternatives_run target count num_alternatives s
    = Ok (([d0], calls), s') ∧
    generate_alternative_combinations target count num_alternatives s
    = Ok ([d0], s') ∧
    length calls = (if decide (num_alternatives ≤ 1) then 1%nat else 100%nat).
Proof.
  intros Hgen Hne Hsum.
  assert (∀ s0 r s1,
            generate_coupon_distribution target count s0 = Ok (r, s1) →
            r = Some d0) as Honly.
  { intros s0 r s1 Hrun. destruct (Hgen s0) as [s1' Hrun']. congruence. }
  destruct (alternatives_run_rule
    (λ n alts calls,
       (alts = [] ∧ calls = [] ∧ n = 100%nat) ∨
       (alts = [d0] ∧ 1 < num_alternatives ∧ (length calls + n = 100)%nat))
    (λ alts calls,
       alts = [d0] ∧
       length calls = (if decide (num_alternatives ≤ 1) then 1%nat else 100%nat))
    target count num_alternatives s)
    as (alts & calls & s' & Hrun & Hgen' & -> & Hcalls).
  - intros alts calls [(_ & _ & ?)|(-> & Hmax & Hn)]; [done|].
    split; [done|]. rewrite decide_False by lia. lia.
  - intros n alts calls r s0 s1 HI Hrun%Honly Hr. subst r.
    destruct HI as [(-> & -> & _)|(-> & Hmax & Hn)].
    + destruct Hr as [?|[?|Hin]]; [done|done|]. by apply elem_of_nil in Hin.
    + right. split; [done|]. split; [done|]. rewrite length_app. simpl. lia.
  - intros n alts calls d s0 s1 HI Hrun%Honly _ _ Hnew.
    injection Hrun as ->.
    destruct HI as [(-> & -> & Hn)|(-> & _ & _)].
    + simpl. case_decide as Hfull.
      * split; [done|]. rewrite decide_True by lia. done.
      * right. split; [done|]. split; [lia|]. simpl. lia.
    + exfalso. apply Hnew. simpl. apply list_elem_of_here.
  - left. done.
  - by exists calls, s'.
Qed.

(** X9. At the two ends of the feasible range there is one alternative:
    for [count >= 1] coupons and [target = count * v] with [v] the minimum
    (250) or the maximum (2000) denomination, whatever the random choices,
    the builder returns exactly one entry, [count] coupons of [v]; it
    invokes the generator once when at most one alternative is asked for,
    and 100 times otherwise. *)
Theorem alternatives_at_the_ends count v num_alternatives s :
  1 ≤ count → v = 250 ∨ v = 2000 →
  ∃ calls s',
    alternatives_run (count * v) count num_alternatives s
    = Ok (([replicate (Z.to_nat count) v], calls), s') ∧
    generate_alternative_combinations (count * v) count num_alternatives s
    = Ok ([replicate (Z.to_nat count) v], s') ∧
    length calls = (if decide (num_alternatives ≤ 1) then 1%nat else 100%nat).
Proof.
  intros Hcount Hv.
  apply alternatives_of_single_result.
  - intros s0. destruct Hv as [-> | ->].
    + exists s0. eapply generate_high; [lia|]. apply search_minimum. lia.
    + destruct (search_maximum count s0) as ([d a] & s1 & Hrun & Hd & _);
        [lia|]. cbn [fst] in Hd. subst d.
      exists s1. eapply generate_high; [lia|done].
  - destruct (Z.to_nat count) eqn:Hn; [lia|done].
  - rewrite sum_replicate. lia.
Qed.

Lemma alternatives_at_the_ends_witness :
  (1 ≤ 3 ∧ (2000 = 250 ∨ 2000 = 2000)) ∧
  ∃ calls s',
    alternatives_run (3 * 2000) 3 5 count_up
    = Ok (([replicate (Z.to_nat 3) 2000], calls), s') ∧
    generate_alternative_combinations (3 * 2000) 3 5 count_up
    = Ok ([replicate (Z.to_nat 3) 2000], s') ∧
    length calls = (if decide (5 ≤ 1) then 1%nat else 100%nat).
Proof.
  split; [split; [lia|by right]|].
  apply (alternatives_at_the_ends 3 2000 5 count_up); [lia|by right].
Defined.

(** ** The summary of a distribution (app.py, lines 79-100) *)

Lemma occurrences_cons v x l :
  occurrences v (x :: l)
  = occurrences v l + (if decide (x = v) then 1 else 0).
Proof.
  unfold occurrences. rewrite filter_cons.
  case_decide; [rewrite length_cons|]; lia.
Qed.

Lemma Counter_foldl_get l (c : gmap Z Z) v :
  counter_get (foldl (λ c v, <[v := default 0 (c !! v) + 1]> c) c l) v
  = counter_get c v + occurrences v l.
Proof.
  revert c. induction l as [|x l IH]; intros c.
  { unfold occurrences. simpl. lia. }
  simpl. rewrite IH, occurrences_cons. unfold counter_get.
  case_decide as Hx.
  - subst x. rewrite lookup_insert_eq. simpl. lia.
  - rewrite lookup_insert_ne by done. lia.
Qed.

Lemma Counter_foldl_keys l (c : gmap Z Z) v :
  is_Some (foldl (λ c v, <[v := default 0 (c !! v) + 1]> c) c l !! v)
  ↔ is_Some (c !! v) ∨ v ∈ l.
Proof.
  revert c. induction l as [|x l IH]; intros c; simpl.
  { rewrite elem_of_nil. tauto. }
  rewrite IH, lookup_insert_is_Some, elem_of_cons.
  destruct (decide (x = v)) as [->|Hne]; [tauto|].
  split; [tauto|]. intros [?|[?|?]]; [tauto|congruence|tauto].
Qed.

(** The Counter of a list maps its elements to their occurrences. *)
Lemma Counter_get l v : counter_get (Counter l) v = occurrences v l.
Proof.
  unfold Counter. rewrite Counter_foldl_get. unfold counter_get.
  by rewrite lookup_empty.
Qed.

(** The sorted keys are the elements of the list, ascending, each once. *)
Lemma sorted_keys_Counter l :
  Sorted Z.le (sorted_keys (Counter l)) ∧
  NoDup (sorted_keys (Counter l)) ∧
  ∀ v, v ∈ sorted_keys (Counter l) ↔ v ∈ l.
Proof.
  unfold sorted_keys, sorted.
  split; [apply Sorted_merge_sort; apply _|]. split.
  - rewrite merge_sort_Permutation. apply NoDup_fst_map_to_list.
  - intros v. rewrite merge_sort_Permutation, list_elem_of_fmap.
    unfold Counter. split.
    + intros ([k x] & -> & Hkx%elem_of_map_to_list). simpl.
      assert (is_Some (foldl (λ c v, <[v := default 0 (c !! v) + 1]> c)
                             (∅ : gmap Z Z) l !! k)) as Hk by eauto.
      apply Counter_foldl_keys in Hk as [[? Hk]|Hk]; [|done].
      by rewrite lookup_empty in Hk.
    + intros Hv.
      destruct (proj2 (Counter_foldl_keys l ∅ v)) as [x Hx]; [by right|].
      exists (v, x). split; [done|]. by apply elem_of_map_to_list.
Qed.

Lemma summary_loop_spec values c total_value :
  summary_loop values c total_value
  = ((λ v, summary_row v (counter_get c v) (v * counter_get c v)) <$> values,
     total_value + sum ((λ v, v * counter_get c v) <$> values)).
Proof.
  revert total_value. induction values as [|v values IH]; intros total_value.
  { simpl. f_equal. unfold sum. simpl. lia. }
  cbn [summary_loop]. rewrite IH. cbn [fst snd fmap list_fmap].
  f_equal. rewrite sum_cons. lia.
Qed.

Lemma sum_fmap_add {A} (f g : A → Z) l :
  sum ((λ v, f v + g v) <$> l) = sum (f <$> l) + sum (g <$> l).
Proof.
  induction l as [|x l IH]; [done|].
  cbn [fmap list_fmap]. rewrite !sum_cons.
  change (f x + g x + sum ((λ v, f v + g v) <$> l)
          = f x + sum (f <$> l) + (g x + sum (g <$> l))).
  lia.
Qed.

Lemma sum_indicator (g : Z → Z) ks x :
  NoDup ks →
  sum ((λ v, if decide (x = v) then g v else 0) <$> ks)
  = if decide (x ∈ ks) then g x else 0.
Proof.
  induction 1 as [|k ks Hk Hks IH].
  { by rewrite decide_False by apply not_elem_of_nil. }
  cbn [fmap list_fmap]. rewrite sum_cons.
  change (sum (list_fmap _ _ ?f ks)) with (sum (f <$> ks)). rewrite IH.
  destruct (decide (x = k)) as [->|Hne].
  - rewrite (decide_False (P := k ∈ ks)) by done.
    rewrite decide_True by apply list_elem_of_here. lia.
  - destruct (decide (x ∈ ks)) as [Hin|Hnin].
    + rewrite decide_True by (by apply list_elem_of_further). lia.
    + rewrite decide_False; [lia|].
      rewrite elem_of_cons. tauto.
Qed.

(** Summing [g] over the elements of a list is summing it over the
    distinct values, each weighted by its occurrences. *)
Lemma sum_by_value (g : Z → Z) ks l :
  NoDup ks → (∀ v, v ∈ l → v ∈ ks) →
  sum ((λ v, g v * occurrences v l) <$> ks) = sum (g <$> l).
Proof.
  intros Hks. induction l as [|x l IH]; intros Hl.
  { unfold occurrences. simpl. clear Hks Hl.
    induction ks as [|k ks IHks]; [done|].
    cbn [fmap list_fmap]. rewrite sum_cons.
    change (sum (list_fmap _ _ ?f ks)) with (sum (f <$> ks)).
    rewrite IHks. change (sum (g <$> [])) with 0. lia. }
  cbn [fmap list_fmap]. rewrite sum_cons.
  change (sum (list_fmap _ _ g l)) with (sum (g <$> l)).
  rewrite <-IH by (intros v Hv; apply Hl; by apply list_elem_of_further).
  rewrite <-(decide_True (g x) 0 (Hl x (list_elem_of_here x l))).
  rewrite <-(sum_indicator g ks x Hks), Z.add_comm, <-sum_fmap_add.
  f_equal. apply list_fmap_ext. intros _ v _.
  rewrite occurrences_cons. case_decide; lia.
Qed.

Lemma sum_occurrences ks l :
  NoDup ks → (∀ v, v ∈ l → v ∈ ks) →
  sum ((λ v, occurrences v l) <$> ks) = Z.of_nat (length l).
Proof.
  intros Hks Hl. transitivity (sum ((λ _, 1) <$> l)).
  - rewrite <-(sum_by_value (λ _, 1) ks l Hks Hl).
    f_equal. apply list_fmap_ext. intros _ v _. lia.
  - clear. induction l as [|x l IH]; [done|].
    cbn [fmap list_fmap]. rewrite sum_cons, length_cons.
    change (sum (list_fmap _ _ ?f l)) with (sum (f <$> l)). lia.
Qed.

Lemma sum_subtotals ks l :
  NoDup ks → (∀ v, v ∈ l → v ∈ ks) →
  sum ((λ v, v * occurrences v l) <$> ks) = sum l.
Proof.
  intros Hks Hl.
  transitivity (sum (id <$> l)); [|by rewrite list_fmap_id].
  by rewrite <-(sum_by_value id ks l Hks Hl).
Qed.

(** The output of the summary over the sorted keys of the Counter. *)
Lemma display_coupon_summary_eq distribution :
  display_coupon_summary distribution
  = [summary_header]
    ++ ((λ v, summary_row v (occurrences v distribution)
                          (v * occurrences v distribution))
          <$> sorted_keys (Counter distribution))
    ++ [summary_divider; summary_total (sum distribution)].
Proof.
  destruct (sorted_keys_Counter distribution) as (_ & Hnodup & Hkeys).
  set (keys := sorted_keys (Counter distribution)) in *.
  assert ((λ v, summary_row v (counter_get (Counter distribution) v)
                  (v * counter_get (Counter distribution) v)) <$> keys
          = (λ v, summary_row v (occurrences v distribution)
                    (v * occurrences v distribution)) <$> keys) as Hrows.
  { apply list_fmap_ext. intros _ v _. by rewrite Counter_get. }
  assert (0 + sum ((λ v, v * counter_get (Counter distribution) v) <$> keys)
          = sum distribution) as Htotal.
  { rewrite Z.add_0_l, <-(sum_subtotals keys distribution Hnodup)
      by (intros v; apply Hkeys).
    f_equal. apply list_fmap_ext. intros _ v _. by rewrite Counter_get. }
  unfold display_coupon_summary. cbv zeta. fold keys.
  rewrite summary_loop_spec. cbn [fst snd]. by rewrite Hrows, Htotal.
Qed.

(** X10. The summary of a distribution lists its distinct values in
    ascending order, each once, with the number of coupons of that value
    and their subtotal; the numbers of coupons add up to the length of the
    distribution and the total shown is its sum. *)
Theorem summary_shows_counts_and_total distribution :
  ∃ values,
    display_coupon_summary distribution
    = [summary_header]
      ++ ((λ v, summary_row v (occurrences v distribution)
                            (v * occurrences v distribution)) <$> values)
      ++ [summary_divider; summary_total (sum distribution)] ∧
    Sorted Z.le values ∧ NoDup values ∧
    (∀ v, v ∈ values ↔ v ∈ distribution) ∧
    sum ((λ v, occurrences v distribution) <$> values)
    = Z.of_nat (length distribution).
Proof.
  destruct (sorted_keys_Counter distribution) as (Hsorted & Hnodup & Hkeys).
  exists (sorted_keys (Counter distribution)).
  split; [apply display_coupon_summary_eq|].
  split; [done|]. split; [done|]. split; [done|].
  apply sum_occurrences; [done|]. intros v. apply Hkeys.
Qed.

(** ** The alternatives panel and the button (app.py, lines 102-124 and
    165-195) *)

(** X11. With two alternatives or more, the panel shows the header with
    their number and one combination per alternative, in order and
    numbered from 1; in each, the lines give for every distinct value its
    number of coupons and their subtotal, the numbers add up to the
    "Total Coupons" shown and the subtotals to the "Total Value". *)
Theorem alternatives_panel_is_consistent alternatives target :
  (1 < length alternatives)%nat →
  ∃ panels,
    display_alternative_combinations alternatives target
    = alternatives_header (length alternatives) target :: panels ∧
    length panels = length alternatives ∧
    ∀ i alt, alternatives !! i = Some alt →
      ∃ lines,
        panels !! i = Some (combination (S i) lines (length alt) (sum alt)) ∧
        (∀ c v t, (c, v, t) ∈ lines ↔
                  v ∈ alt ∧ c = occurrences v alt ∧ t = c * v) ∧
        sum ((λ line, line.1.1) <$> lines) = Z.of_nat (length alt) ∧
        sum ((λ line, line.2) <$> lines) = sum alt.
Proof.
  intros Hmany. unfold display_alternative_combinations.
  rewrite decide_True by lia.
  eexists. split; [done|]. split; [apply length_imap|].
  intros i alt Hi. rewrite list_lookup_imap, Hi. cbn [fmap option_fmap].
  unfold option_map, combination_panel. cbv zeta.
  destruct (sorted_keys_Counter alt) as (_ & Hnodup & Hkeys).
  eexists. split; [done|]. split; [|split].
  - intros c v t. rewrite list_elem_of_fmap. split.
    + intros (v' & [= -> -> ->] & Hv'). rewrite Counter_get.
      split; [by apply Hkeys|done].
    + intros (Hv & -> & ->). exists v. rewrite Counter_get.
      split; [done|by apply Hkeys].
  - rewrite <-list_fmap_compose.
    rewrite <-(sum_occurrences _ alt Hnodup) by (intros v; apply Hkeys).
    f_equal. apply list_fmap_ext. intros _ v _. simpl.
    by rewrite Counter_get.
  - rewrite <-list_fmap_compose.
    rewrite <-(sum_subtotals _ alt Hnodup) by (intros v; apply Hkeys).
    f_equal. apply list_fmap_ext. intros _ v _. simpl.
    rewrite Counter_get. lia.
Qed.

Lemma alternatives_panel_is_consistent_witness :
  (1 < length [[500; 1000; 500; 1000]; [2000; 500; 250; 250]])%nat ∧
  ∃ panels,
    display_alternative_combinations
      [[500; 1000; 500; 1000]; [2000; 500; 250; 250]] 3000
    = alternatives_header
        (length [[500; 1000; 500; 1000]; [2000; 500; 250; 250]]) 3000
      :: panels ∧
    length panels
    = length [[500; 1000; 500; 1000]; [2000; 500; 250; 250]] ∧
    ∀ i alt,
      [[500; 1000; 500; 1000]; [2000; 500; 250; 250]] !! i = Some alt →
      ∃ lines,
        panels !! i = Some (combination (S i) lines (length alt) (sum alt)) ∧
        (∀ c v t, (c, v, t) ∈ lines ↔
                  v ∈ alt ∧ c = occurrences v alt ∧ t = c * v) ∧
        sum ((λ line, line.1.1) <$> lines) = Z.of_nat (length alt) ∧
        sum ((λ line, line.2) <$> lines) = sum alt.
Proof.
  split; [simpl; lia|].
  apply (alternatives_panel_is_consistent
           [[500; 1000; 500; 1000]; [2000; 500; 250; 250]] 3000).
  simpl. lia.
Defined.

Lemma on_generate_positive target count s :
  0 < target → 0 < count →
  on_generate target count s
  = (if decide (target < count * 250) then
       ret [too_low_error (count * 250) count]
     else
       distribution <- generate_coupon_distribution target count ;;
       match distribution with
       | Some distribution =>
         if truthy distribution && bool_decide (sum distribution = target)
         then
           alternatives <- generate_alternative_combinations target count 5 ;;
           ret ([success_message]
                ++ display_coupon_summary distribution
                ++ display_alternative_combinations alternatives target
                ++ [individual_values
                      (imap (λ i value, ((i mod 5)%nat, S i, value))
                            distribution)])
         else ret [no_exact_error]
       | None => ret [no_exact_error]
       end) s.
Proof.
  intros Htarget Hcount. unfold on_generate.
  rewrite !bool_decide_eq_true_2 by lia. cbn [andb].
  by rewrite bind_run, min_COUPON_VALUES.
Qed.

(** X12. What the button can show for positive inputs, whatever the random
    choices: below the minimum, the "too low" error with the minimum
    [count * 250], and no draw is made; otherwise either the "could not
    generate" error, or the success message with a distribution of
    [count] denominations that sums to [target], a summary whose total is
    [target], and at most 5 alternatives, each of [count] coupons summing
    to [target]. *)
Theorem button_shows_only_exact_distributions target count s :
  0 < target → 0 < count →
  ∃ out s',
    on_generate target count s = Ok (out, s') ∧
    ((target < count * 250 ∧
      out = [too_low_error (count * 250) count] ∧ s' = s) ∨
     (count * 250 ≤ target ∧ out = [no_exact_error]) ∨
     (∃ d alts,
        out = [success_message]
              ++ display_coupon_summary d
              ++ display_alternative_combinations alts target
              ++ [individual_values
                    (imap (λ i value, ((i mod 5)%nat, S i, value)) d)] ∧
        Z.of_nat (length d) = count ∧
        (∀ v, v ∈ d → v ∈ COUPON_VALUES) ∧
        sum d = target ∧
        summary_total target ∈ out ∧
        (length alts ≤ 5)%nat ∧
        ∀ a, a ∈ alts → sum a = target ∧ Z.of_nat (length a) = count)).
Proof.
  intros Htarget Hcount. rewrite on_generate_positive by done.
  case_decide as Hlow.
  { exists [too_low_error (count * 250) count], s. split; [done|]. by left. }
  rewrite bind_run.
  destruct (generate_spec target count s) as (r & s1 & -> & Hr).
  destruct r as [d|]; [|lia].
  destruct Hr as (_ & Hlen & Hd & _).
  destruct (truthy d && bool_decide (sum d = target)) eqn:Hok.
  - apply andb_true_iff in Hok as [_ Hsum%bool_decide_eq_true].
    rewrite bind_run.
    destruct (alternatives_run_spec target count 5 s1)
      as ([alts calls] & s2 & Hrun & (Hsums & _) & Hle & _); [lia|].
    cbn [fst] in Hsums, Hle.
    rewrite (alternatives_of_run _ _ _ _ _ _ _ Hrun).
    eexists _, s2. split; [done|]. right. right. exists d, alts.
    split; [done|]. split; [lia|]. split; [by apply Forall_forall|].
    split; [done|]. split; [|split; [lia|done]].
    rewrite display_coupon_summary_eq, Hsum.
    rewrite !elem_of_app, !elem_of_cons. tauto.
  - exists [no_exact_error], s1. split; [done|]. right. left. split; [lia|done].
Qed.

Lemma button_shows_only_exact_distributions_witness :
  (0 < 3000 ∧ 0 < 4) ∧
  ∃ out s',
    on_generate 3000 4 count_up = Ok (out, s') ∧
    ((3000 < 4 * 250 ∧
      out = [too_low_error (4 * 250) 4] ∧ s' = count_up) ∨
     (4 * 250 ≤ 3000 ∧ out = [no_exact_error]) ∨
     (∃ d alts,
        out = [success_message]
              ++ display_coupon_summary d
              ++ display_alternative_combinations alts 3000
              ++ [individual_values
                    (imap (λ i value, ((i mod 5)%nat, S i, value)) d)] ∧
        Z.of_nat (length d) = 4 ∧
        (∀ v, v ∈ d → v ∈ COUPON_VALUES) ∧
        sum d = 3000 ∧
        summary_total 3000 ∈ out ∧
        (length alts ≤ 5)%nat ∧
        ∀ a, a ∈ alts → sum a = 3000 ∧ Z.of_nat (length a) = 4)).
Proof.
  split; [lia|].
  apply (button_shows_only_exact_distributions 3000 4 count_up); lia.
Defined.

(** X13. For positive inputs with [target >= count * 250] for which no
    distribution of [count] denominations sums to [target], the button
    shows the "could not generate" error and nothing else, whatever the
    random choices. *)
Theorem button_on_infeasible_target target count s :
  0 < target → 0 < count → count * 250 ≤ target →
  (∀ d, Z.of_nat (length d) = count → (∀ v, v ∈ d → v ∈ COUPON_VALUES) →
        sum d ≠ target) →
  ∃ s', on_generate target count s = Ok ([no_exact_error], s').
Proof.
  intros Htarget Hcount Hhigh Hnone. rewrite on_generate_positive by done.
  rewrite decide_False by lia. rewrite bind_run.
  destruct (generate_spec target count s) as (r & s1 & -> & Hr).
  exists s1. destruct r as [d|]; [|done].
  destruct Hr as (_ & Hlen & Hd & _).
  rewrite (bool_decide_eq_false_2 (sum d = target)).
  - by rewrite andb_false_r.
  - apply Hnone; [lia|by apply Forall_forall].
Qed.

Lemma button_on_infeasible_target_witness :
  (0 < 750 ∧ 0 < 1 ∧ 1 * 250 ≤ 750 ∧
   ∀ d, Z.of_nat (length d) = 1 → (∀ v, v ∈ d → v ∈ COUPON_VALUES) →
        sum d ≠ 750) ∧
  ∃ s', on_generate 750 1 count_up = Ok ([no_exact_error], s').
Proof.
  assert (∀ d, Z.of_nat (length d) = 1 →
               (∀ v, v ∈ d → v ∈ COUPON_VALUES) → sum d ≠ 750) as H.
  { intros [|a [|? ?]] Hlen Hd; simpl in Hlen; try lia.
    assert (a ∈ COUPON_VALUES) as Ha by (apply Hd; rewrite elem_of_cons; auto).
    unfold sum. simpl. apply coupon_cases in Ha. lia. }
  split; [repeat split; [lia..|exact H]|].
  apply (button_on_infeasible_target 750 1 count_up); [lia..|exact H].
Defined.

Lemma occurrences_replicate n v : occurrences v (replicate n v) = Z.of_nat n.
Proof.
  induction n as [|n IH]; [done|].
  change (replicate (S n) v) with (v :: replicate n v).
  rewrite occurrences_cons, IH, decide_True by done. lia.
Qed.

Lemma sorted_keys_replicate n v :
  sorted_keys (Counter (replicate (S n) v)) = [v].
Proof.
  destruct (sorted_keys_Counter (replicate (S n) v)) as (_ & Hnodup & Hkeys).
  assert (∀ x, x ∈ sorted_keys (Counter (replicate (S n) v)) ↔ x = v) as Hv.
  { intros x. rewrite Hkeys, elem_of_replicate. split; [tauto|].
    intros ->. split; [done|lia]. }
  destruct (sorted_keys (Counter (replicate (S n) v))) as [|a [|b l]].
  - exfalso. apply (not_elem_of_nil v). by apply Hv.
  - f_equal. apply Hv, list_elem_of_here.
  - exfalso. apply NoDup_cons in Hnodup as [Hnotin _]. apply Hnotin.
    assert (a = v) as -> by apply Hv, list_elem_of_here.
    assert (b = v) as ->
      by apply Hv, list_elem_of_further, list_elem_of_here.
    apply list_elem_of_here.
Qed.

(** X14. At the two ends of the feasible range the button always succeeds:
    for [count >= 1] coupons and [target = count * v] with [v] the minimum
    (250) or the maximum (2000) denomination, whatever the random choices,
    it shows the success message, a summary of one row ([count] coupons of
    [v], total [target]), the note that only one combination was found,
    and [count] individual coupons of [v]. *)
Theorem button_at_the_ends count v s :
  1 ≤ count → v = 250 ∨ v = 2000 →
  ∃ s',
    on_generate (count * v) count s
    = Ok ([success_message;
           summary_header; summary_row v count (v * count);
           summary_divider; summary_total (count * v);
           only_one_info;
           individual_values
             (imap (λ i value, ((i mod 5)%nat, S i, value))
                   (replicate (Z.to_nat count) v))], s').
Proof.
  intros Hcount Hv.
  assert (0 < count * v) as Htarget by (destruct Hv as [-> | ->]; lia).
  rewrite on_generate_positive by lia.
  rewrite decide_False by (destruct Hv as [-> | ->]; lia).
  set (d := replicate (Z.to_nat count) v).
  assert (sum d = count * v) as Hsum
    by (unfold d; rewrite sum_replicate; lia).
  assert (∃ s1, generate_coupon_distribution (count * v) count s
                = Ok (Some d, s1)) as [s1 Hgen].
  { destruct Hv as [-> | ->].
    - exists s. eapply generate_high; [lia|]. apply search_minimum. lia.
    - destruct (search_maximum count s) as ([d' a] & s1 & Hrun & Hd & _);
        [lia|]. cbn [fst] in Hd. subst d'.
      exists s1. eapply generate_high; [lia|done]. }
  rewrite bind_run, Hgen.
  destruct (Z.to_nat count) as [|n] eqn:Hn; [lia|].
  assert (truthy d = true) as -> by done.
  rewrite bool_decide_eq_true_2 by done. cbn [andb].
  destruct (alternatives_of_single_result (count * v) count 5 d s1)
    as (calls & s2 & _ & Halts & _); [|done|done|].
  { intros s0. destruct Hv as [-> | ->].
    - exists s0. unfold d. rewrite <-Hn.
      eapply generate_high; [lia|]. apply search_minimum. lia.
    - destruct (search_maximum count s0) as ([d' a] & s3 & Hrun & Hd & _);
        [lia|]. cbn [fst] in Hd. subst d'.
      exists s3. unfold d. rewrite <-Hn. eapply generate_high; [lia|done]. }
  rewrite bind_run, Halts. exists s2. unfold ret. do 2 f_equal.
  rewrite display_coupon_summary_eq, Hsum. subst d.
  rewrite sorted_keys_replicate. cbn [fmap list_fmap].
  rewrite occurrences_replicate.
  replace (Z.of_nat (S n)) with count by lia. done.
Qed.

Lemma button_at_the_ends_witness :
  (1 ≤ 3 ∧ (2000 = 250 ∨ 2000 = 2000)) ∧
  ∃ s',
    on_generate (3 * 2000) 3 count_up
    = Ok ([success_message;
           summary_header; summary_row 2000 3 (2000 * 3);
           summary_divider; summary_total (3 * 2000);
           only_one_info;
           individual_values
             (imap (λ i value, ((i mod 5)%nat, S i, value))
                   (replicate (Z.to_nat 3) 2000))], s').
Proof.
  split; [split; [lia|by right]|].
  apply (button_at_the_ends 3 2000 count_up); [lia|by right].
Defined.
